(** * flake8.utils: the files-to-codes mapping parser and the unified-diff parser

    A shallow embedding of [src/flake8/utils.py]: the regular expressions of
    the module, [_tokenize_files_to_codes_mapping],
    [parse_files_to_codes_mapping] and [parse_unified_diff], followed by the
    properties proved about them.

    A Python [str] is a [string] whose characters are the code points below
    256; the character classes [\s], [\d], the line boundaries of
    [str.splitlines] and [str.strip] are the ones Python uses on that
    range. *)

From Stdlib Require Import ZArith Ascii String.
From stdpp Require Import gmap strings list.

Local Open Scope Z_scope.

(** ** Characters and character classes *)

Module Chr.

Definition ord (c : ascii) : N := N_of_ascii c.

Definition between (lo hi : N) (c : ascii) : bool :=
  ((lo <=? ord c) && (ord c <=? hi))%N.

(** [\s] and [str.isspace]: U+0009..U+000D, U+001C..U+0020, U+0085, U+00A0. *)
Definition isspace (c : ascii) : bool :=
  between 9 13 c || between 28 32 c || (ord c =? 133)%N || (ord c =? 160)%N.

(** Line boundaries of [str.splitlines]. *)
Definition islinebreak (c : ascii) : bool :=
  between 10 13 c || between 28 30 c || (ord c =? 133)%N.

(** [\d] and [[0-9]]: the only decimal digits below 256 are [0-9]. *)
Definition isdecimal (c : ascii) : bool := between 48 57 c.

(** [[A-Z]] *)
Definition isupper_az (c : ascii) : bool := between 65 90 c.

Definition eqc (a : ascii) (c : ascii) : bool := bool_decide (c = a).

(** [.] without DOTALL: anything but a newline. *)
Definition dot (c : ascii) : bool := negb (eqc "010" c).

(** [[^\s:,]] *)
Definition not_space_colon_comma (c : ascii) : bool :=
  negb (isspace c || eqc ":" c || eqc "," c).

Definition TAB : ascii := "009".
Definition LF : ascii := "010".
Definition CR : ascii := "013".

End Chr.

(** ** The [str] operations the module uses *)

Module Str.

Definition LF : string := String Chr.LF "".

(** [s[:n]] *)
Fixpoint take (n : nat) (s : string) : string :=
  match n, s with
  | S n', String c s' => String c (take n' s')
  | _, _ => ""
  end.

(** [s[n:]] *)
Fixpoint drop (n : nat) (s : string) : string :=
  match n, s with
  | S n', String _ s' => drop n' s'
  | _, _ => s
  end.

(** [s[i:j]] *)
Definition slice (i j : nat) (s : string) : string := take (j - i) (drop i s).

Fixpoint lstrip (s : string) : string :=
  match s with
  | String c s' => if Chr.isspace c then lstrip s' else s
  | "" => ""
  end.

Fixpoint rstrip (s : string) : string :=
  match s with
  | String c s' =>
      match rstrip s' with
      | "" => if Chr.isspace c then "" else String c ""
      | r => String c r
      end
  | "" => ""
  end.

(** [s.strip()] *)
Definition strip (s : string) : string := rstrip (lstrip s).

(** [s.split(sep, 1)[0]] for a one-character [sep]. *)
Fixpoint before (sep : ascii) (s : string) : string :=
  match s with
  | String c s' => if Chr.eqc sep c then "" else String c (before sep s')
  | "" => ""
  end.

(** [s.splitlines(keepends)], [cur] being the line read so far. *)
Fixpoint splitlines_from (keepends : bool) (cur : string) (s : string)
  : list string :=
  match s with
  | "" => match cur with "" => [] | _ => [cur] end
  | String c s' =>
      if Chr.islinebreak c then
        match s' with
        | String c' s'' =>
            if Chr.eqc Chr.CR c && Chr.eqc Chr.LF c' then
              (cur +:+ (if keepends then String c (String c' "") else ""))
                :: splitlines_from keepends "" s''
            else
              (cur +:+ (if keepends then String c "" else ""))
                :: splitlines_from keepends "" s'
        | "" => [cur +:+ (if keepends then String c "" else "")]
        end
      else splitlines_from keepends (cur +:+ String c "") s'
  end.

Definition splitlines (keepends : bool) (s : string) : list string :=
  splitlines_from keepends "" s.

(** [sep.join(l)] *)
Fixpoint join (sep : string) (l : list string) : string :=
  match l with
  | [] => ""
  | [x] => x
  | x :: l' => x +:+ sep +:+ join sep l'
  end.

(** [textwrap.indent(text, prefix)]: the prefix goes before every line that
    is not made of whitespace only. *)
Definition indent (text prefix : string) : string :=
  join "" ((λ line, match strip line with
                    | "" => line
                    | _ => prefix +:+ line
                    end) <$> splitlines true text).

(** [int(s)] on the text of a [\d+] group; anything else is a
    [ValueError], given as [None]. *)
Definition digit (c : ascii) : option Z :=
  if Chr.isdecimal c then Some (Z.of_N (Chr.ord c) - 48) else None.

Fixpoint int_from (acc : Z) (s : string) : option Z :=
  match s with
  | "" => Some acc
  | String c s' =>
      match digit c with
      | Some d => int_from (10 * acc + d) s'
      | None => None
      end
  end.

Definition int (s : string) : option Z :=
  match s with "" => None | _ => int_from 0 s end.

(** Every character of [s] is in the class [p]. *)
Fixpoint all (p : ascii → bool) (s : string) : bool :=
  match s with
  | String c s' => p c && all p s'
  | "" => true
  end.

(** Length of the longest prefix of [s] made of characters in [p]. *)
Fixpoint span (p : ascii → bool) (s : string) : nat :=
  match s with
  | String c s' => if p c then S (span p s') else O
  | "" => O
  end.

(** [needle in s] *)
Fixpoint prefix (p s : string) : bool :=
  match p, s with
  | "", _ => true
  | String a p', String b s' => bool_decide (a = b) && prefix p' s'
  | _, _ => false
  end.

Fixpoint contains (needle s : string) : bool :=
  prefix needle s ||
  match s with
  | String _ s' => contains needle s'
  | "" => false
  end.

End Str.

(** ** Regular expressions

    The patterns of the module, as syntax, and the backtracking matcher of
    [re]: greedy repetition, alternatives tried left to right, the first
    complete match wins.  The module repeats single-character classes only
    ([[A-Z]+], [\s*], [\d+], ...), so repetition is over a class. *)

Inductive regex : Type :=
| Bos                                  (* ^ *)
| Eos                                  (* $ *)
| Eps                                  (* the empty pattern *)
| Lit (c : ascii)                      (* a literal character *)
| Cls (p : ascii → bool)               (* [...], \s, \d, . *)
| Star (p : ascii → bool)              (* [...]* *)
| Plus (p : ascii → bool)              (* [...]+ *)
| Cat (r1 r2 : regex)                  (* r1r2 *)
| Alt (r1 r2 : regex)                  (* r1|r2 *)
| Opt (r : regex)                      (* (?:r)? *)
| Ahead (r : regex)                    (* (?=r) *)
| Group (n : nat) (r : regex).         (* (r), the n-th group, from 0 *)

Module Re.

Definition captures := list (option string).

(** A continuation receives the position reached, the text left and the
    groups captured so far. *)
Definition cont (A : Type) := nat → string → captures → option A.

Fixpoint star {A} (p : ascii → bool) (pos : nat) (s : string)
    (caps : captures) (k : cont A) : option A :=
  match s with
  | String c s' =>
      if p c then
        match star p (S pos) s' caps k with
        | Some x => Some x
        | None => k pos s caps
        end
      else k pos s caps
  | "" => k pos s caps
  end.

Fixpoint run {A} (r : regex) (pos : nat) (s : string) (caps : captures)
    (k : cont A) {struct r} : option A :=
  match r with
  | Bos => match pos with O => k pos s caps | _ => None end
  | Eos =>
      match s with
      | "" => k pos s caps
      | String c "" => if Chr.eqc Chr.LF c then k pos s caps else None
      | _ => None
      end
  | Eps => k pos s caps
  | Lit a =>
      match s with
      | String c s' => if Chr.eqc a c then k (S pos) s' caps else None
      | "" => None
      end
  | Cls p =>
      match s with
      | String c s' => if p c then k (S pos) s' caps else None
      | "" => None
      end
  | Star p => star p pos s caps k
  | Plus p =>
      match s with
      | String c s' => if p c then star p (S pos) s' caps k else None
      | "" => None
      end
  | Cat r1 r2 => run r1 pos s caps (λ pos' s' caps', run r2 pos' s' caps' k)
  | Alt r1 r2 =>
      match run r1 pos s caps k with
      | Some x => Some x
      | None => run r2 pos s caps k
      end
  | Opt r1 =>
      match run r1 pos s caps k with
      | Some x => Some x
      | None => k pos s caps
      end
  | Ahead r1 =>
      match run r1 pos s caps (λ _ _ caps', Some caps') with
      | Some caps' => k pos s caps'
      | None => None
      end
  | Group n r1 =>
      run r1 pos s caps
        (λ pos' s' caps', k pos' s' (<[n := Some (Str.take (pos' - pos) s)]> caps'))
  end.

(** Number of capturing groups of a pattern. *)
Fixpoint ngroups (r : regex) : nat :=
  match r with
  | Cat r1 r2 | Alt r1 r2 => ngroups r1 + ngroups r2
  | Opt r1 | Ahead r1 => ngroups r1
  | Group _ r1 => S (ngroups r1)
  | _ => O
  end.

(** Least number of characters a match of the pattern takes. *)
Fixpoint minlen (r : regex) : nat :=
  match r with
  | Lit _ | Cls _ | Plus _ => 1
  | Cat r1 r2 => minlen r1 + minlen r2
  | Alt r1 r2 => minlen r1 `min` minlen r2
  | Group _ r1 => minlen r1
  | _ => 0
  end.

(** What a match is, with no order among the candidates: [matches r pos s
    caps n caps'] when [r] at position [pos], before the text [s], takes
    the first [n] characters of [s] and turns the groups [caps] into
    [caps']. *)
Inductive matches : regex → nat → string → captures → nat → captures → Prop :=
| m_bos s caps : matches Bos 0 s caps 0 caps
| m_eos_end pos caps : matches Eos pos "" caps 0 caps
| m_eos_lf pos caps : matches Eos pos (String Chr.LF "") caps 0 caps
| m_eps pos s caps : matches Eps pos s caps 0 caps
| m_lit a pos s caps : matches (Lit a) pos (String a s) caps 1 caps
| m_cls (p : ascii → bool) c pos s caps :
    p c = true → matches (Cls p) pos (String c s) caps 1 caps
| m_star p pos s caps n :
    (n ≤ Str.span p s)%nat → matches (Star p) pos s caps n caps
| m_plus p pos s caps n :
    (0 < n ≤ Str.span p s)%nat → matches (Plus p) pos s caps n caps
| m_cat r1 r2 pos s caps n1 caps1 n2 caps2 :
    matches r1 pos s caps n1 caps1 →
    matches r2 (pos + n1) (Str.drop n1 s) caps1 n2 caps2 →
    matches (Cat r1 r2) pos s caps (n1 + n2) caps2
| m_alt_l r1 r2 pos s caps n caps' :
    matches r1 pos s caps n caps' → matches (Alt r1 r2) pos s caps n caps'
| m_alt_r r1 r2 pos s caps n caps' :
    matches r2 pos s caps n caps' → matches (Alt r1 r2) pos s caps n caps'
| m_opt_some r pos s caps n caps' :
    matches r pos s caps n caps' → matches (Opt r) pos s caps n caps'
| m_opt_none r pos s caps : matches (Opt r) pos s caps 0 caps
| m_ahead r pos s caps n caps' :
    matches r pos s caps n caps' → matches (Ahead r) pos s caps 0 caps'
| m_group i r pos s caps n caps' :
    matches r pos s caps n caps' →
    matches (Group i r) pos s caps n (<[i := Some (Str.take n s)]> caps').

(** A match object: where the match ends and what its groups hold. *)
Record Match := { m_start : nat; m_end : nat; m_groups : captures }.

(** [pattern.match(value, i)] *)
Definition match_at (r : regex) (value : string) (i : nat) : option Match :=
  run r i (Str.drop i value) (replicate (ngroups r) None)
    (λ e _ caps, Some {| m_start := i; m_end := e; m_groups := caps |}).

(** [match.group()] *)
Definition group0 (value : string) (m : Match) : string :=
  Str.slice (m_start m) (m_end m) value.

End Re.

Infix "⨾" := Cat (at level 45, right associativity).

(** A run of literal characters. *)
Fixpoint text (s : string) : regex :=
  match s with
  | "" => Eps
  | String c s' => Lit c ⨾ text s'
  end.

(** ** Exceptions and results *)

Inductive exn : Type :=
| AssertionError
| ValueError
| ExecutionError (msg : string).

(** What a call does: it returns, it raises, or it never comes back. *)
Inductive outcome (A : Type) : Type :=
| Return (a : A)
| Raise (e : exn)
| Diverge.
Arguments Return {A} a.
Arguments Raise {A} e.
Arguments Diverge {A}.

Global Instance outcome_bind : MBind outcome := λ A B f x,
  match x with
  | Return a => f a
  | Raise e => Raise e
  | Diverge => Diverge
  end.

(** ** The module's patterns *)

(** [^@@ -\d+(?:,\d+)? \+(\d+)(?:,(\d+))? @@.*$]; the two groups are
    numbered as [match.groups()] lists them. *)
Definition DIFF_HUNK_REGEXP : regex :=
  Bos ⨾ text "@@ -" ⨾ Plus Chr.isdecimal
      ⨾ Opt (Lit "," ⨾ Plus Chr.isdecimal)
      ⨾ text " +" ⨾ Group 0 (Plus Chr.isdecimal)
      ⨾ Opt (Lit "," ⨾ Group 1 (Plus Chr.isdecimal))
      ⨾ text " @@" ⨾ Star Chr.dot ⨾ Eos.

Inductive token_type : Type := _CODE | _FILE | _COLON | _COMMA | _WS | _EOF.

Global Instance token_type_eq_dec : EqDecision token_type.
Proof. solve_decision. Defined.

Record _Token : Type := Token { tp : token_type; src : string }.

(** The table of token patterns, in the order they are tried:
    [[A-Z]+[0-9]*(?=$|\s|,)], [[^\s:,]+], [\s*:\s*], [\s*,\s*], [\s+]. *)
Definition _FILE_LIST_TOKEN_TYPES : list (regex * token_type) :=
  [ (Plus Chr.isupper_az ⨾ Star Chr.isdecimal
       ⨾ Ahead (Alt Eos (Alt (Cls Chr.isspace) (Lit ","))), _CODE);
    (Plus Chr.not_space_colon_comma, _FILE);
    (Star Chr.isspace ⨾ Lit ":" ⨾ Star Chr.isspace, _COLON);
    (Star Chr.isspace ⨾ Lit "," ⨾ Star Chr.isspace, _COMMA);
    (Plus Chr.isspace, _WS) ].

(** ** The tokenizer *)

(** The [for token_re, token_name in ...] loop: the first pattern that
    matches at [i], or [None] when the loop reaches its [else]. *)
Fixpoint first_match (types : list (regex * token_type)) (value : string)
    (i : nat) : option (Re.Match * token_type) :=
  match types with
  | [] => None
  | (token_re, token_name) :: types' =>
      match Re.match_at token_re value i with
      | Some m => Some (m, token_name)
      | None => first_match types' value i
      end
  end.

(** The [while i < len(value)] loop; [fuel] bounds its iterations. *)
Fixpoint tokenize_loop (fuel : nat) (value : string) (i : nat)
    (tokens : list _Token) : outcome (list _Token) :=
  if bool_decide (i < String.length value)%nat then
    match fuel with
    | O => Diverge
    | S fuel' =>
        match first_match _FILE_LIST_TOKEN_TYPES value i with
        | Some (m, token_name) =>
            tokenize_loop fuel' value (Re.m_end m)
              (tokens ++ [Token token_name (Str.strip (Re.group0 value m))])
        | None => Raise AssertionError
        end
    end
  else Return (tokens ++ [Token _EOF ""]).

Definition _tokenize_files_to_codes_mapping (value : string)
  : outcome (list _Token) :=
  tokenize_loop (String.length value) value 0 [].

(** ** The mapping parser *)

Record State : Type := mkState {
  seen_sep : bool;
  seen_colon : bool;
  filenames : list string;
  codes : list string
}.

Definition mapping := list (string * list string).

Definition State0 : State :=
  {| seen_sep := true; seen_colon := false; filenames := []; codes := [] |}.

Definition _reset (st : State) (ret : mapping) : State * mapping :=
  (State0,
   match codes st with
   | [] => ret
   | _ => ret ++ ((λ filename, (filename, codes st)) <$> filenames st)
   end).

Definition _unexpected_token (value : string) : exn :=
  ExecutionError
    ("Expected `per-file-ignores` to be a mapping from file exclude "
     +:+ "patterns to ignore codes." +:+ Str.LF +:+ Str.LF
     +:+ "Configured `per-file-ignores` setting:" +:+ Str.LF +:+ Str.LF
     +:+ Str.indent (Str.strip value) "    ").

(** The body of [for token in ...]. *)
Definition parse_step (value : string) (token : _Token)
    (st : State) (ret : mapping) : outcome (State * mapping) :=
  if bool_decide (tp token = _COMMA) || bool_decide (tp token = _WS) then
    Return (mkState true (seen_colon st) (filenames st) (codes st), ret)
  else if negb (seen_colon st) then
    if bool_decide (tp token = _COLON) then
      Return (mkState true true (filenames st) (codes st), ret)
    else if seen_sep st && bool_decide (tp token = _FILE) then
      Return (mkState false (seen_colon st)
                (filenames st ++ [src token]) (codes st), ret)
    else Raise (_unexpected_token value)
  else
    if bool_decide (tp token = _EOF) then
      Return (_reset st ret)
    else if seen_sep st && bool_decide (tp token = _CODE) then
      Return (mkState false (seen_colon st)
                (filenames st) (codes st ++ [src token]), ret)
    else if seen_sep st && bool_decide (tp token = _FILE) then
      let '(st', ret') := _reset st ret in
      Return (mkState false (seen_colon st')
                (filenames st' ++ [src token]) (codes st'), ret')
    else Raise (_unexpected_token value).

Fixpoint parse_loop (value : string) (tokens : list _Token)
    (st : State) (ret : mapping) : outcome mapping :=
  match tokens with
  | [] => Return ret
  | token :: tokens' =>
      '(st', ret') ← parse_step value token st ret;
      parse_loop value tokens' st' ret'
  end.

(** [value_] is a sequence of strings or a string. *)
Definition parse_files_to_codes_mapping (value_ : list string + string)
  : outcome mapping :=
  let value :=
    match value_ with
    | inl l => Str.join Str.LF l
    | inr s => s
    end in
  let ret : mapping := [] in
  match Str.strip value with
  | "" => Return ret
  | _ =>
      tokens ← _tokenize_files_to_codes_mapping value;
      parse_loop value tokens State0 ret
  end.

(** ** The unified-diff parser *)

(** The loop variables [number_of_rows], [current_path] and [parsed_paths]
    (a [defaultdict(set)]: a key that is missing reads as the empty set). *)
Record DiffState : Type := mkDiff {
  number_of_rows : option Z;
  current_path : option string;
  parsed_paths : gmap string (gset Z)
}.

Definition DiffState0 : DiffState :=
  {| number_of_rows := None; current_path := None; parsed_paths := ∅ |}.

(** [if number_of_rows:] *)
Definition truthy (n : option Z) : bool :=
  match n with
  | Some n => negb (n =? 0)
  | None => false
  end.

(** [range(a, b)] as a set. *)
Definition range (a b : Z) : gset Z := list_to_set (seqZ a (b - a)).

(** [1 if not group else int(group)] *)
Definition group_value (group : option string) : outcome Z :=
  match group with
  | None | Some "" => Return 1
  | Some g =>
      match Str.int g with
      | Some n => Return n
      | None => Raise ValueError
      end
  end.

(** The generator over [hunk_match.groups()], run by the unpacking. *)
Fixpoint group_values (groups : list (option string)) : outcome (list Z) :=
  match groups with
  | [] => Return []
  | group :: groups' =>
      n ← group_value group;
      ns ← group_values groups';
      Return (n :: ns)
  end.

(** The body of [for line in diff.splitlines()]. *)
Definition diff_step (line : string) (st : DiffState) : outcome DiffState :=
  if truthy (number_of_rows st) then
    if bool_decide (line = "") || negb (bool_decide (Str.take 1 line = "-"))
    then Return (mkDiff ((λ n, n - 1) <$> number_of_rows st)
                   (current_path st) (parsed_paths st))
    else Return st
  else if bool_decide (Str.take 3 line = "+++") then
    let current_path := Str.before Chr.TAB (Str.drop 4 line) in
    let current_path :=
      if bool_decide (Str.take 2 current_path = "b/")
      then Str.drop 2 current_path else current_path in
    Return (mkDiff (number_of_rows st) (Some current_path) (parsed_paths st))
  else
    match Re.match_at DIFF_HUNK_REGEXP line 0 with
    | Some hunk_match =>
        values ← group_values (Re.m_groups hunk_match);
        match values with
        | [row; number_of_rows] =>
            match current_path st with
            | None => Raise AssertionError
            | Some path =>
                Return (mkDiff (Some number_of_rows) (Some path)
                          (<[path := default ∅ (parsed_paths st !! path)
                                       ∪ range row (row + number_of_rows)]>
                             (parsed_paths st)))
            end
        | _ => Raise ValueError
        end
    | None => Return st
    end.

Fixpoint diff_loop (lines : list string) (st : DiffState)
  : outcome (gmap string (gset Z)) :=
  match lines with
  | [] => Return (parsed_paths st)
  | line :: lines' =>
      st' ← diff_step line st;
      diff_loop lines' st'
  end.

(** [parse_unified_diff(diff)] for a [diff] that is given; reading it from
    stdin when it is [None] is outside this development. *)
Definition parse_unified_diff (diff : string)
  : outcome (gmap string (gset Z)) :=
  diff_loop (Str.splitlines false diff) DiffState0.

(** ** Vocabulary of the properties *)

(** The token the tokenizer makes of the match [(a, b)] of the pattern named
    [name]. *)
Definition token_of (value : string) (sp : nat * nat * token_type) : _Token :=
  Token sp.2 (Str.strip (Str.slice sp.1.1 sp.1.2 value)).

(** Spans that follow one another from [i] to [j], none empty, with no gap. *)
Fixpoint tiles (spans : list (nat * nat)) (i j : nat) : Prop :=
  match spans with
  | [] => i = j
  | (a, b) :: spans' => a = i ∧ (a < b)%nat ∧ tiles spans' b j
  end.

(** Length of the longest prefix of [s] of the form [[A-Z]+[0-9]*] (or of
    its digits alone when [s] starts with no capital). *)
Definition code_run (s : string) : nat :=
  let n := Str.span Chr.isupper_az s in
  (n + Str.span Chr.isdecimal (Str.drop n s))%nat.

(** [s] is empty or starts with whitespace or a comma: what the lookahead
    [(?=$|\s|,)] asks for. *)
Definition at_boundary (s : string) : bool :=
  match s with
  | "" => true
  | String c _ => Chr.isspace c || Chr.eqc "," c
  end.

(** The span [(a, b)] named [name] is the match the table gives at cursor
    [a]; its name is one of the table's, so not [_EOF]. *)
Definition matched (value : string) (sp : nat * nat * token_type) : Prop :=
  sp.2 ≠ _EOF
  ∧ ∃ m, first_match _FILE_LIST_TOKEN_TYPES value sp.1.1 = Some (m, sp.2)
         ∧ Re.m_end m = sp.1.2.

(** The lookahead and the pattern of [_CODE], as the table has them. *)
Definition boundary_ahead : regex :=
  Ahead (Alt Eos (Alt (Cls Chr.isspace) (Lit ","))).

Definition CODE_RE : regex :=
  Plus Chr.isupper_az ⨾ Star Chr.isdecimal ⨾ boundary_ahead.

(** *** Well-formed mappings

    The token sequence of a mapping made of groups
    [filename[,filename...] : CODE[,CODE...]], the separators being commas
    and whitespace. *)

Definition sep (t : _Token) : Prop := tp t = _COMMA ∨ tp t = _WS.

(** [(sep+ x)*] for tokens [x] of type [ty], with the texts of the [x]. *)
Inductive more (ty : token_type) : list _Token → list string → Prop :=
| more_nil : more ty [] []
| more_cons seps x toks xs :
    seps ≠ [] → Forall sep seps → more ty toks xs →
    more ty (seps ++ Token ty x :: toks) (x :: xs).

(** [x (sep+ x)*] *)
Inductive items (ty : token_type) : list _Token → list string → Prop :=
| items_intro x toks xs :
    more ty toks xs → items ty (Token ty x :: toks) (x :: xs).

(** One group: [files sep* COLON sep* codes]; it declares the filenames
    [g.1] and the codes [g.2]. *)
Inductive group_tokens : list _Token → list string * list string → Prop :=
| group_intro ftoks fs s1 colon s2 ctoks cs :
    items _FILE ftoks fs → Forall sep s1 → tp colon = _COLON →
    Forall sep s2 → items _CODE ctoks cs →
    group_tokens (ftoks ++ s1 ++ colon :: s2 ++ ctoks) (fs, cs).

(** [group (sep+ group)*] *)
Inductive groups_tokens
  : list _Token → list (list string * list string) → Prop :=
| groups_one toks g : group_tokens toks g → groups_tokens toks [g]
| groups_more toks g seps toks' gs :
    group_tokens toks g → seps ≠ [] → Forall sep seps →
    groups_tokens toks' gs →
    groups_tokens (toks ++ seps ++ toks') (g :: gs).

(** [sep* groups sep* EOF] *)
Definition well_formed (tokens : list _Token)
    (gs : list (list string * list string)) : Prop :=
  ∃ s0 body s1 eof,
    tokens = s0 ++ body ++ s1 ++ [eof]
    ∧ Forall sep s0 ∧ groups_tokens body gs ∧ Forall sep s1 ∧ tp eof = _EOF.

(** One pair per declared filename, each with the codes of its group. *)
Definition pairs_of (g : list string * list string) : mapping :=
  (λ filename, (filename, g.2)) <$> g.1.

Definition declared (gs : list (list string * list string)) : mapping :=
  gs ≫= pairs_of.

(** What is emitted when the next group starts or the input ends. *)
Definition pending (st : State) : mapping :=
  if seen_colon st then pairs_of (filenames st, codes st) else [].

(** A group may start in the initial state or after the codes of the group
    before it, a separator having been seen. *)
Definition group_start (st : State) : Prop :=
  seen_sep st = true
  ∧ if seen_colon st then codes st ≠ []
    else filenames st = [] ∧ codes st = [].

(** States the parser can be in: those met from the initial one. *)
Inductive reachable (value : string) : State → mapping → Prop :=
| reach_init : reachable value State0 []
| reach_step token st ret st' ret' :
    reachable value st ret →
    parse_step value token st ret = Return (st', ret') →
    reachable value st' ret'.

(** The fixed part of the message of [_unexpected_token]. *)
Definition unexpected_header : string :=
  "Expected `per-file-ignores` to be a mapping from file exclude "
  +:+ "patterns to ignore codes." +:+ Str.LF +:+ Str.LF
  +:+ "Configured `per-file-ignores` setting:" +:+ Str.LF +:+ Str.LF.

(** The text [parse_files_to_codes_mapping] works on. *)
Definition mapping_text (value_ : list string + string) : string :=
  match value_ with
  | inl l => Str.join Str.LF l
  | inr s => s
  end.

(** *** Hunks of a diff *)

(** A text of decimal digits, and its value. *)
Definition digits (s : string) : Prop :=
  s ≠ "" ∧ Str.all Chr.isdecimal s = true.

Definition decimal (s : string) : Z := default 0 (Str.int s).

(** The new-file range of a hunk header: new-start and new-count are the
    two groups of the pattern, a missing count being 1. *)
Definition hunk_header (line : string) : option (Z * Z) :=
  match Re.match_at DIFF_HUNK_REGEXP line 0 with
  | Some m =>
      match Re.m_groups m with
      | [Some start; count] => Some (decimal start, from_option decimal 1 count)
      | _ => None
      end
  | None => None
  end.

(** The path a [+++] line names: the text after its 4th character, up to
    the first tab, without a leading "b/". *)
Definition path_of (line : string) : string :=
  let path := Str.before Chr.TAB (Str.drop 4 line) in
  if Str.prefix "b/" path then Str.drop 2 path else path.

Record hunk : Type := mkHunk {
  hunk_path : option string;
  new_start : Z;
  new_count : Z
}.

(** The hunks of a diff, in order: a line is part of a hunk body while rows
    remain ([rows > 0]), where every line but a removal uses up a row;
    outside a body a [+++] line sets the path and a hunk header opens a
    hunk for the current path. *)
Fixpoint hunks_from (path : option string) (rows : Z) (lines : list string)
  : list hunk :=
  match lines with
  | [] => []
  | line :: lines' =>
      if 0 <? rows then
        hunks_from path (if Str.prefix "-" line then rows else rows - 1) lines'
      else if Str.prefix "+++" line then
        hunks_from (Some (path_of line)) rows lines'
      else
        match hunk_header line with
        | Some (start, count) =>
            mkHunk path start count :: hunks_from path count lines'
        | None => hunks_from path rows lines'
        end
  end.

Definition hunks (diff : string) : list hunk :=
  hunks_from None 0 (Str.splitlines false diff).

(** The line [x] is in the new-file range of the hunk [h]. *)
Definition in_hunk (x : Z) (h : hunk) : Prop :=
  new_start h ≤ x < new_start h + new_count h.

(** The countdown, 0 when it is not set. *)
Definition rows_of (st : DiffState) : Z := default 0 (number_of_rows st).

(** The hunk has a path: its header came after a [+++] line. *)
Definition has_path (h : hunk) : Prop := is_Some (hunk_path h).


Definition two_hunks_diff : string :=
  "--- a/foo.py" +:+ Str.LF +:+ "+++ b/foo.py" +:+ String Chr.TAB "100644"
  +:+ Str.LF +:+ "@@ -1 +1 @@" +:+ Str.LF +:+ "+x" +:+ Str.LF
  +:+ "@@ -5,0 +7,2 @@ def f():" +:+ Str.LF +:+ "+y" +:+ Str.LF +:+ "+z"
  +:+ Str.LF.

Definition body_diff : string :=
  "+++ b/a.py" +:+ Str.LF +:+ "@@ -1 +1,2 @@" +:+ Str.LF
  +:+ "+++ b/b.py" +:+ Str.LF +:+ "@@ -9 +9 @@" +:+ Str.LF.




(** ** Vocabulary of the further properties *)

(** Texts of the form [[A-Z]+[0-9]*]. *)
Definition code_shaped (x : string) : Prop :=
  ∃ letters numbers,
    x = letters +:+ numbers ∧ letters ≠ ""
    ∧ Str.all Chr.isupper_az letters = true
    ∧ Str.all Chr.isdecimal numbers = true.

(** Non-empty texts with no whitespace, colon or comma. *)
Definition file_shaped (x : string) : Prop :=
  x ≠ "" ∧ Str.all Chr.not_space_colon_comma x = true.

(** What the text of a token can be, by its type. *)
Definition token_text_ok (t : _Token) : Prop :=
  match tp t with
  | _CODE => code_shaped (src t)
  | _FILE => file_shaped (src t)
  | _COLON => src t = ":"
  | _COMMA => src t = ","
  | _WS | _EOF => src t = ""
  end.

(** A pair of the result: a filename with the codes of its group. *)
Definition pair_ok (p : string * list string) : Prop :=
  file_shaped p.1 ∧ p.2 ≠ [] ∧ Forall code_shaped p.2.

Definition state_ok (st : State) (ret : mapping) : Prop :=
  Forall file_shaped (filenames st) ∧ Forall code_shaped (codes st)
  ∧ Forall pair_ok ret.

(** The text has no colon. *)
Definition no_colon (s : string) : Prop :=
  Str.all (λ c, negb (Chr.eqc ":" c)) s = true.

(** The text has no tab. *)
Definition no_tab (s : string) : Prop :=
  Str.all (λ c, negb (Chr.eqc Chr.TAB c)) s = true.

(** ** Searching, splitting and substituting with a pattern

    [pattern.split] and [pattern.sub] look for the matches of the pattern
    one after the other: each search starts where the match before ended
    and takes the first position, from there on, where the pattern matches;
    right after an empty match, an empty match at that same position is
    refused. *)

(** The search from position [i], [s] being the text from [i] on. *)
Fixpoint search_from (r : regex) (must_advance : bool) (i : nat) (s : string)
  : option Re.Match :=
  match
    Re.run r i s (replicate (Re.ngroups r) None)
      (λ e _ caps,
         if must_advance && bool_decide (e = i) then None
         else Some {| Re.m_start := i; Re.m_end := e; Re.m_groups := caps |})
  with
  | Some m => Some m
  | None =>
      match s with
      | "" => None
      | String _ s' => search_from r false (S i) s'
      end
  end.

Definition search (r : regex) (value : string) (start : nat)
    (must_advance : bool) : option Re.Match :=
  search_from r must_advance start (Str.drop start value).

(** The matches found from [start] on; [fuel] bounds their number. *)
Fixpoint find_matches (fuel : nat) (r : regex) (value : string) (start : nat)
    (must_advance : bool) : outcome (list Re.Match) :=
  match fuel with
  | O => Diverge
  | S fuel' =>
      match search r value start must_advance with
      | None => Return []
      | Some m =>
          ms ← find_matches fuel' r value (Re.m_end m)
                 (bool_decide (Re.m_end m = Re.m_start m));
          Return (m :: ms)
      end
  end.

(** No more than two matches start at a position, and one more search
    finds nothing. *)
Definition match_fuel (value : string) : nat :=
  (2 * String.length value + 3)%nat.

(** The texts between the matches, from [last] on. *)
Fixpoint split_pieces (value : string) (last : nat) (ms : list Re.Match)
  : list string :=
  match ms with
  | [] => [Str.drop last value]
  | m :: ms' =>
      Str.slice last (Re.m_start m) value :: split_pieces value (Re.m_end m) ms'
  end.

(** [pattern.split(value)], for a pattern with no group. *)
Definition re_split (r : regex) (value : string) : outcome (list string) :=
  ms ← find_matches (match_fuel value) r value 0 false;
  Return (split_pieces value 0 ms).

(** The texts between the matches, each match replaced by [repl]. *)
Fixpoint sub_pieces (repl value : string) (i : nat) (ms : list Re.Match)
  : string :=
  match ms with
  | [] => Str.drop i value
  | m :: ms' =>
      Str.slice i (Re.m_start m) value +:+ repl
      +:+ sub_pieces repl value (Re.m_end m) ms'
  end.

(** [pattern.sub(repl, value)], for a [repl] with no backslash in it. *)
Definition re_sub (r : regex) (repl value : string) : outcome string :=
  ms ← find_matches (match_fuel value) r value 0 false;
  Return (sub_pieces repl value 0 ms).

(** ** Comma-separated lists and package names *)

(** [[,\s]] *)
Definition COMMA_SEPARATED_LIST_RE : regex :=
  Cls (λ c, Chr.eqc "," c || Chr.isspace c).

(** [[,\t\n\r\f\v]] *)
Definition LOCAL_PLUGIN_LIST_RE : regex :=
  Cls (λ c, Chr.eqc "," c || Chr.between 9 13 c).

(** [[-_.]+] *)
Definition NORMALIZE_PACKAGE_NAME_RE : regex :=
  Plus (λ c, Chr.eqc "-" c || Chr.eqc "_" c || Chr.eqc "." c).

(** [parse_comma_separated_list(value, regexp)]; the default of [regexp]
    is [COMMA_SEPARATED_LIST_RE]. *)
Definition parse_comma_separated_list (value : string) (regexp : regex)
  : outcome (list string) :=
  separated ← re_split regexp value;
  let item_gen : list string := Str.strip <$> (separated : list string) in
  Return (filter (λ item, item ≠ "") item_gen).

(** [c.lower()]: below 256 the capitals are [A-Z] and U+00C0..U+00DE
    without U+00D7, each 32 below its small letter. *)
Definition lower_char (c : ascii) : ascii :=
  if Chr.between 65 90 c || Chr.between 192 214 c || Chr.between 216 222 c
  then ascii_of_N (Chr.ord c + 32) else c.

(** [s.lower()] *)
Fixpoint lower (s : string) : string :=
  match s with
  | "" => ""
  | String c s' => String (lower_char c) (lower s')
  end.

(** [normalize_pypi_name(s)] *)
Definition normalize_pypi_name (s : string) : outcome string :=
  t ← re_sub NORMALIZE_PACKAGE_NAME_RE "-" s;
  Return (lower t).

(** *** The same, by recursion on the text *)

(** The pieces of [s] between its characters in [p]. *)
Fixpoint split_on (p : ascii → bool) (s : string) : list string :=
  match s with
  | "" => [""]
  | String c s' =>
      if p c then "" :: split_on p s'
      else match split_on p s' with
           | x :: xs => String c x :: xs
           | [] => [String c ""]
           end
  end.

(** [s] with every run of characters in [p] replaced by [repl]; [in_run]
    when the character before [s] was in [p]. *)
Fixpoint sub_runs (p : ascii → bool) (repl : string) (in_run : bool)
    (s : string) : string :=
  match s with
  | "" => ""
  | String c s' =>
      if p c then (if in_run then "" else repl) +:+ sub_runs p repl true s'
      else String c (sub_runs p repl false s')
  end.

(** The characters [normalize_pypi_name] takes for separators. *)
Definition name_sep (c : ascii) : bool :=
  Chr.eqc "-" c || Chr.eqc "_" c || Chr.eqc "." c.

(** A normalized name: no capital, no "_", no ".", no "-" after a "-". *)
Fixpoint normalized (after_dash : bool) (s : string) : bool :=
  match s with
  | "" => true
  | String c s' =>
      bool_decide (lower_char c = c)
      && negb (Chr.eqc "_" c) && negb (Chr.eqc "." c)
      && negb (after_dash && Chr.eqc "-" c)
      && normalized (Chr.eqc "-" c) s'
  end.

(** ** Matching file names *)

(** A record made by [logger.debug(log_message, {"path": ..., "whether":
    ...})]. *)
Record debug_record : Type := mkDebug {
  debug_message : string;
  debug_path : string;
  debug_whether : string
}.

Section filenames.

(** [fnmatch.fnmatch], [os.path.basename] and [os.path.abspath], which
    depend on the platform and on the working directory. *)
Variable _fnmatch_fnmatch : string → string → bool.
Variable os_path_basename : string → string.
Variable os_path_abspath : string → string.

(** [fnmatch(filename, patterns)] *)
Definition fnmatch (filename : string) (patterns : list string) : bool :=
  match patterns with
  | [] => true
  | _ => existsb (λ pattern, _fnmatch_fnmatch filename pattern) patterns
  end.

(** [matches_filename(path, patterns, log_message, logger)]: what it
    returns and what it logs. *)
Definition matches_filename (path : string) (patterns : list string)
    (log_message : string) : bool * list debug_record :=
  match patterns with
  | [] => (false, [])
  | _ =>
      let basename := os_path_basename path in
      if negb (bool_decide (basename ∈ ["."; ".."]))
         && fnmatch basename patterns
      then (true, [mkDebug log_message basename ""])
      else
        let absolute_path := os_path_abspath path in
        let match_ := fnmatch absolute_path patterns in
        (match_,
         [mkDebug log_message absolute_path
            (if match_ then "" else "not ")])
  end.

End filenames.

(** ** Normalizing paths *)

(** [s.rstrip(chars)] *)
Fixpoint rstrip_chars (chars : string) (s : string) : string :=
  match s with
  | "" => ""
  | String c s' =>
      match rstrip_chars chars s' with
      | "" => if Str.contains (String c "") chars then "" else String c ""
      | r => String c r
      end
  end.

Section paths.

(** [os.path.sep], [os.path.altsep], [os.path.abspath] and [os.path.join],
    which depend on the platform and on the working directory. *)
Variable os_path_sep : ascii.
Variable os_path_altsep : option ascii.
Variable os_path_abspath : string → string.
Variable os_path_join : string → string → string.

(** [normalize_path(path, parent)] *)
Definition normalize_path (path parent : string) : string :=
  let separator := String os_path_sep "" in
  let alternate_separator :=
    match os_path_altsep with
    | Some c => String c ""
    | None => ""
    end in
  let path :=
    if bool_decide (path = ".")
       || Str.contains separator path
       || (negb (bool_decide (alternate_separator = ""))
           && Str.contains alternate_separator path)
    then os_path_abspath (os_path_join parent path)
    else path in
  rstrip_chars (separator +:+ alternate_separator) path.

(** [normalize_paths(paths, parent)] *)
Definition normalize_paths (paths : list string) (parent : string)
  : list string :=
  (λ p, normalize_path p parent) <$> paths.

End paths.

(** The last character of a text. *)
Fixpoint last_char (s : string) : option ascii :=
  match s with
  | "" => None
  | String c "" => Some c
  | String _ s' => last_char s'
  end.

(** Position of the first character of [s] in [p]. *)
Fixpoint find_char (p : ascii → bool) (s : string) : option nat :=
  match s with
  | "" => None
  | String c s' => if p c then Some O else S <$> find_char p s'
  end.

(** An item of a parsed list: not empty, with no whitespace at its ends and
    no separator in it. *)
Definition item_ok (p : ascii → bool) (x : string) : Prop :=
  x ≠ "" ∧ Str.strip x = x ∧ Str.all (λ c, negb (p c)) x = true.

(** Whether the text [a], read from a state [in_run], ends inside a run of
    characters in [p]. *)
Definition run_state (p : ascii → bool) (in_run : bool) (a : string) : bool :=
  match last_char a with
  | None => in_run
  | Some c => p c
  end.

(** [c] is the separator of paths or the alternative one. *)
Definition is_separator (sep : ascii) (altsep : option ascii) (c : ascii)
  : bool :=
  bool_decide (c = sep) || bool_decide (Some c = altsep).

(** A group that has its colon and no code: [files sep* COLON sep*]. *)
Definition open_group (toks : list _Token) : Prop :=
  ∃ ftoks fs s1 colon s2,
    toks = ftoks ++ s1 ++ colon :: s2
    ∧ items _FILE ftoks fs ∧ Forall sep s1 ∧ tp colon = _COLON
    ∧ Forall sep s2.

(** Number of lines of a hunk body that use up a row: those that do not
    start with "-". *)
Definition rows_in (body : list string) : nat :=
  length (filter (λ line, Str.prefix "-" line = false) body).

Global Instance has_path_dec h : Decision (has_path h).
Proof. unfold has_path. apply _. Defined.

(** * Properties *)

(** ** Strings *)

Section str_facts.
Implicit Types (s t : string) (n m : nat) (p : ascii → bool).

Lemma str_app_cons c s t : String c s +:+ t = String c (s +:+ t).
Proof. reflexivity. Qed.

Lemma str_drop_0 s : Str.drop 0 s = s.
Proof. by destruct s. Qed.

Lemma str_drop_length s n :
  String.length (Str.drop n s) = (String.length s - n)%nat.
Proof.
  revert s; induction n as [|n IH]; intros [|c s]; cbn; auto.
Qed.

Lemma str_drop_drop s n m : Str.drop m (Str.drop n s) = Str.drop (n + m) s.
Proof.
  revert s; induction n as [|n IH]; intros s; cbn.
  - done.
  - destruct s as [|c s]; [by destruct m|apply IH].
Qed.

Lemma str_take_take_drop s n m :
  Str.take n s +:+ Str.take m (Str.drop n s) = Str.take (n + m) s.
Proof.
  revert s; induction n as [|n IH]; intros s; cbn.
  - done.
  - destruct s as [|c s]; cbn; [by destruct m|].
    by rewrite str_app_cons, IH.
Qed.

Lemma str_drop_cons s n :
  (n < String.length s)%nat →
  ∃ c, Str.drop n s = String c (Str.drop (S n) s).
Proof.
  revert s; induction n as [|n IH]; intros [|c s] Hn; cbn in Hn; try lia.
  - by exists c.
  - destruct (IH s) as [c' Hc']; [lia|]. by exists c'.
Qed.

Lemma str_span_le_length p s : (Str.span p s ≤ String.length s)%nat.
Proof. induction s as [|c s IH]; cbn; [done|]. destruct (p c); lia. Qed.

Lemma str_all_app p s t : Str.all p (s +:+ t) = Str.all p s && Str.all p t.
Proof.
  induction s as [|c s IH]; [done|].
  rewrite str_app_cons. cbn. by rewrite IH, andb_assoc.
Qed.

Lemma str_all_take_span p s n : (n ≤ Str.span p s)%nat → Str.all p (Str.take n s) = true.
Proof.
  revert s; induction n as [|n IH]; intros [|c s]; cbn; try done.
  destruct (p c) eqn:Hc; [|lia]. intros ?. cbn. apply IH; lia.
Qed.

Lemma str_span_ge_all p s n :
  (n ≤ String.length s)%nat → Str.all p (Str.take n s) = true →
  (n ≤ Str.span p s)%nat.
Proof.
  revert s; induction n as [|n IH]; intros [|c s]; cbn; try lia.
  intros ? [Hc ?]%andb_true_iff. rewrite Hc.
  apply le_n_S, IH; [lia|done].
Qed.

Lemma str_all_impl p q s :
  (∀ c, p c = true → q c = true) → Str.all p s = true → Str.all q s = true.
Proof.
  intros Hpq. induction s as [|c s IH]; cbn; [done|].
  intros [?%Hpq ?%IH]%andb_true_iff. by apply andb_true_iff.
Qed.

Lemma str_span_drop_lt p s n c t :
  (n < Str.span p s)%nat → Str.drop n s = String c t → p c = true.
Proof.
  revert s; induction n as [|n IH]; intros [|c' s]; cbn; try lia.
  - destruct (p c') eqn:Hc'; [|lia]. by intros _ [= <- _].
  - destruct (p c') eqn:Hc'; [|lia]. intros ?. apply IH; lia.
Qed.

Lemma lstrip_id c s : Chr.isspace c = false → Str.lstrip (String c s) = String c s.
Proof. intros Hc. cbn. by rewrite Hc. Qed.

Lemma rstrip_id s :
  Str.all (λ c, negb (Chr.isspace c)) s = true → Str.rstrip s = s.
Proof.
  induction s as [|c s IH]; cbn; [done|].
  intros [Hc Hs]%andb_true_iff. rewrite (IH Hs).
  destruct s; [|done]. by destruct (Chr.isspace c).
Qed.

(** Stripping leaves a text with no whitespace in it as it is. *)
Lemma strip_id s :
  Str.all (λ c, negb (Chr.isspace c)) s = true → Str.strip s = s.
Proof.
  intros Hs. unfold Str.strip. destruct s as [|c s]; [done|].
  assert (Chr.isspace c = false) as Hc.
  { cbn in Hs. apply andb_true_iff in Hs as [Hc _]. by destruct (Chr.isspace c). }
  rewrite lstrip_id by done. by apply rstrip_id.
Qed.

End str_facts.

(** ** The matcher *)

Section star_facts.
Context {A : Type}.
Implicit Types (k : Re.cont A) (p : ascii → bool).

(** A greedy repetition that succeeds stopped somewhere in the longest
    run of the class. *)
Lemma star_sound p pos s caps k x :
  Re.star p pos s caps k = Some x →
  ∃ n, (n ≤ Str.span p s)%nat ∧ k (pos + n)%nat (Str.drop n s) caps = Some x.
Proof.
  revert pos; induction s as [|c s IH]; intros pos; cbn.
  - intros Hk. exists O. by rewrite Nat.add_0_r.
  - destruct (p c) eqn:Hc.
    + destruct (Re.star p (S pos) s caps k) as [y|] eqn:Hs.
      * intros [= ->]. destruct (IH _ Hs) as (n & Hn & Hk).
        exists (S n). split; [lia|]. by rewrite Nat.add_succ_r.
      * intros Hk. exists O. split; [lia|]. by rewrite Nat.add_0_r.
    + intros Hk. exists O. by rewrite Nat.add_0_r.
Qed.

(** It tries the longest run first. *)
Lemma star_first p pos s caps k x :
  k (pos + Str.span p s)%nat (Str.drop (Str.span p s) s) caps = Some x →
  Re.star p pos s caps k = Some x.
Proof.
  revert pos; induction s as [|c s IH]; intros pos; cbn.
  - by rewrite Nat.add_0_r.
  - destruct (p c) eqn:Hc; cbn.
    + rewrite Nat.add_succ_r. intros Hk. by rewrite (IH (S pos) Hk).
    + by rewrite Nat.add_0_r.
Qed.

(** It fails when what follows fails after every shorter run too. *)
Lemma star_none p pos s caps k :
  (∀ n, (n ≤ Str.span p s)%nat →
        k (pos + n)%nat (Str.drop n s) caps = None) →
  Re.star p pos s caps k = None.
Proof.
  revert pos; induction s as [|c s IH]; intros pos Hk; cbn.
  - specialize (Hk O). rewrite Nat.add_0_r in Hk. by apply Hk.
  - assert (k pos (String c s) caps = None) as H0.
    { specialize (Hk O). rewrite Nat.add_0_r in Hk. apply Hk; lia. }
    destruct (p c) eqn:Hc; [|done].
    rewrite IH; [done|]. intros n Hn.
    specialize (Hk (S n)). rewrite Nat.add_succ_r in Hk.
    apply Hk. cbn. rewrite Hc. lia.
Qed.

(** It cannot fail when what follows cannot. *)
Lemma star_total p pos s caps k :
  (∀ pos' s' caps', is_Some (k pos' s' caps')) →
  is_Some (Re.star p pos s caps k).
Proof.
  intros Hk. destruct (Hk (pos + Str.span p s)%nat
    (Str.drop (Str.span p s) s) caps) as [x Hx].
  exists x. by apply star_first.
Qed.

End star_facts.

(** Whenever the matcher succeeds, the pattern matches a prefix of the text
    and the continuation succeeded after it. *)
Lemma run_sound r :
  ∀ A pos s caps (k : Re.cont A) x,
    Re.run r pos s caps k = Some x →
    ∃ n caps', Re.matches r pos s caps n caps'
               ∧ k (pos + n)%nat (Str.drop n s) caps' = Some x.
Proof.
  induction r as [| | |a|p|p|p|r1 IH1 r2 IH2|r1 IH1 r2 IH2|r1 IH1|r1 IH1|i r1 IH1];
    intros A pos s caps k x; cbn.
  - destruct pos; [|done]. intros Hk. exists O, caps. split; [constructor|done].
  - destruct s as [|c [|c' s]]; try done.
    + intros Hk. exists O, caps. rewrite Nat.add_0_r. split; [constructor|done].
    + unfold Chr.eqc. case_bool_decide as Hc; [|done]. subst c.
      intros Hk. exists O, caps. rewrite Nat.add_0_r. split; [constructor|done].
  - intros Hk. exists O, caps. rewrite Nat.add_0_r, str_drop_0.
    split; [constructor|done].
  - destruct s as [|c s]; [done|]. unfold Chr.eqc.
    case_bool_decide as Hc; [|done]. subst c.
    intros Hk. exists 1%nat, caps. rewrite Nat.add_1_r.
    split; [constructor|done].
  - destruct s as [|c s]; [done|]. destruct (p c) eqn:Hc; [|done].
    intros Hk. exists 1%nat, caps. rewrite Nat.add_1_r.
    split; [by constructor|done].
  - intros (n & Hn & Hk)%star_sound. exists n, caps. split; [by constructor|done].
  - destruct s as [|c s]; [done|]. destruct (p c) eqn:Hc; [|done].
    intros (n & Hn & Hk)%star_sound. exists (S n), caps. split.
    + constructor. cbn. rewrite Hc. lia.
    + by rewrite Nat.add_succ_r.
  - intros (n1 & caps1 & Hm1 & Hk1)%IH1.
    apply IH2 in Hk1 as (n2 & caps2 & Hm2 & Hk2).
    exists (n1 + n2)%nat, caps2. split; [by econstructor|].
    by rewrite Nat.add_assoc, <-str_drop_drop.
  - destruct (Re.run r1 pos s caps k) as [y|] eqn:H1.
    + intros [= ->]. apply IH1 in H1 as (n & caps' & Hm & Hk).
      exists n, caps'. split; [by apply Re.m_alt_l|done].
    + intros (n & caps' & Hm & Hk)%IH2.
      exists n, caps'. split; [by apply Re.m_alt_r|done].
  - destruct (Re.run r1 pos s caps k) as [y|] eqn:H1.
    + intros [= ->]. apply IH1 in H1 as (n & caps' & Hm & Hk).
      exists n, caps'. split; [by apply Re.m_opt_some|done].
    + intros Hk. exists O, caps. rewrite Nat.add_0_r, str_drop_0.
      split; [apply Re.m_opt_none|done].
  - destruct (Re.run r1 pos s caps (λ _ _ caps', Some caps')) as [caps1|] eqn:H1;
      [|done].
    apply IH1 in H1 as (n & caps' & Hm & [= ->]).
    intros Hk. exists O, caps1. rewrite Nat.add_0_r, str_drop_0.
    split; [by econstructor|done].
  - intros (n & caps' & Hm & Hk)%IH1.
    exists n, (<[i:=Some (Str.take n s)]> caps').
    split; [by constructor|]. by replace (pos + n - pos)%nat with n in Hk by lia.
Qed.

Lemma run_cat {A} r1 r2 pos s caps (k : Re.cont A) :
  Re.run (r1 ⨾ r2) pos s caps k
    = Re.run r1 pos s caps (λ pos' s' caps', Re.run r2 pos' s' caps' k).
Proof. reflexivity. Qed.

Lemma run_star {A} p pos s caps (k : Re.cont A) :
  Re.run (Star p) pos s caps k = Re.star p pos s caps k.
Proof. reflexivity. Qed.

Lemma run_plus {A} p pos c s caps (k : Re.cont A) :
  Re.run (Plus p) pos (String c s) caps k
    = if p c then Re.star p (S pos) s caps k else None.
Proof. reflexivity. Qed.

Lemma matches_bounds r pos s caps n caps' :
  Re.matches r pos s caps n caps' →
  (Re.minlen r ≤ n ≤ String.length s)%nat.
Proof.
  induction 1 as [| | | | | |p pos s caps n Hn|p pos s caps n Hn
                  |r1 r2 pos s caps n1 caps1 n2 caps2 _ IH1 _ IH2
                  | | | | | |]; cbn in *; try lia.
  - pose proof (str_span_le_length p s). lia.
  - pose proof (str_span_le_length p s). lia.
  - rewrite str_drop_length in IH2. lia.
Qed.

(** [pattern.match(value, i)] gives a match that starts at [i], is at least
    as long as the pattern demands and stays inside [value]. *)
Lemma match_at_bounds r value i m :
  (i ≤ String.length value)%nat →
  Re.match_at r value i = Some m →
  Re.m_start m = i ∧ (i + Re.minlen r ≤ Re.m_end m ≤ String.length value)%nat.
Proof.
  unfold Re.match_at. intros Hi (n & caps' & Hm & [= <-])%run_sound. cbn.
  apply matches_bounds in Hm. rewrite str_drop_length in Hm. lia.
Qed.

(** ** The tokenizer *)

Lemma first_match_inv types value i m name :
  first_match types value i = Some (m, name) →
  ∃ r, (r, name) ∈ types ∧ Re.match_at r value i = Some m.
Proof.
  induction types as [|[r n] types IH]; cbn; [done|].
  destruct (Re.match_at r value i) as [m'|] eqn:Hm.
  - intros [= -> ->]. exists r. split; [left|done].
  - intros (r' & Hin & Hr')%IH. exists r'. split; [by right|done].
Qed.

Lemma first_match_some types value i r name :
  (r, name) ∈ types → is_Some (Re.match_at r value i) →
  is_Some (first_match types value i).
Proof.
  induction types as [|[r' n'] types IH]; cbn; [by intros ?%elem_of_nil|].
  intros [[= <- <-]|Hin]%elem_of_cons Hm.
  - destruct Hm as [m ->]. by eexists.
  - destruct (Re.match_at r' value i); [by eexists|by apply IH].
Qed.

(** Every pattern of the table takes at least one character, and none is
    named [_EOF]. *)
Lemma token_types_progress r name :
  (r, name) ∈ _FILE_LIST_TOKEN_TYPES → (1 ≤ Re.minlen r)%nat ∧ name ≠ _EOF.
Proof.
  unfold _FILE_LIST_TOKEN_TYPES.
  rewrite !elem_of_cons, elem_of_nil.
  intros [[= -> ->]|[[= -> ->]|[[= -> ->]|[[= -> ->]|[[= -> ->]|[]]]]]];
    cbn; split; (lia || done).
Qed.

(** Every character is one of: a character of a file name, whitespace, a
    colon, a comma. *)
Lemma char_cases c :
  Chr.not_space_colon_comma c = true ∨ Chr.isspace c = true
  ∨ c = ":"%char ∨ c = ","%char.
Proof.
  unfold Chr.not_space_colon_comma, Chr.eqc.
  destruct (Chr.isspace c); [by auto|].
  do 2 (case_bool_decide; [by auto|]). by left.
Qed.

Lemma plus_total {A} p pos c s caps (k : Re.cont A) :
  p c = true → (∀ pos' s' caps', is_Some (k pos' s' caps')) →
  is_Some (Re.run (Plus p) pos (String c s) caps k).
Proof. intros Hc Hk. cbn. rewrite Hc. by apply star_total. Qed.

(** The table is exhaustive: at every position inside [value] one of the
    patterns matches, so the [else] of the [for] loop is never reached. *)
Lemma first_match_exhaustive value i :
  (i < String.length value)%nat →
  is_Some (first_match _FILE_LIST_TOKEN_TYPES value i).
Proof.
  intros (c & Hc)%str_drop_cons.
  assert (∀ (pos' : nat) (s' : string) (caps' : Re.captures),
    is_Some (Some {| Re.m_start := i; Re.m_end := pos'; Re.m_groups := caps' |}))
    as Hk by (by eexists).
  destruct (char_cases c) as [Hf|[Hs|[->| ->]]].
  - apply (first_match_some _ _ _ (Plus Chr.not_space_colon_comma) _FILE).
    { unfold _FILE_LIST_TOKEN_TYPES. set_solver. }
    unfold Re.match_at. rewrite Hc. by apply plus_total.
  - apply (first_match_some _ _ _ (Plus Chr.isspace) _WS).
    { unfold _FILE_LIST_TOKEN_TYPES. set_solver. }
    unfold Re.match_at. rewrite Hc. by apply plus_total.
  - apply (first_match_some _ _ _
      (Star Chr.isspace ⨾ Lit ":" ⨾ Star Chr.isspace) _COLON).
    { unfold _FILE_LIST_TOKEN_TYPES. set_solver. }
    unfold Re.match_at. rewrite Hc. cbn. by apply star_total.
  - apply (first_match_some _ _ _
      (Star Chr.isspace ⨾ Lit "," ⨾ Star Chr.isspace) _COMMA).
    { unfold _FILE_LIST_TOKEN_TYPES. set_solver. }
    unfold Re.match_at. rewrite Hc. cbn. by apply star_total.
Qed.

Lemma tokenize_loop_S fuel value i tokens :
  tokenize_loop (S fuel) value i tokens =
    if bool_decide (i < String.length value)%nat then
      match first_match _FILE_LIST_TOKEN_TYPES value i with
      | Some (m, token_name) =>
          tokenize_loop fuel value (Re.m_end m)
            (tokens ++ [Token token_name (Str.strip (Re.group0 value m))])
      | None => Raise AssertionError
      end
    else Return (tokens ++ [Token _EOF ""]).
Proof. reflexivity. Qed.

Lemma tokenize_loop_spec value fuel : ∀ i tokens,
  (i ≤ String.length value)%nat → (String.length value - i ≤ fuel)%nat →
  ∃ spans,
    tokenize_loop fuel value i tokens
      = Return (tokens ++ (token_of value <$> spans) ++ [Token _EOF ""])
    ∧ tiles (fst <$> spans) i (String.length value)
    ∧ Forall (matched value) spans.
Proof.
  induction fuel as [|fuel IH]; intros i tokens Hi Hfuel.
  - exists []. assert (i = String.length value) as -> by lia.
    destruct value; cbn; (case_bool_decide; [lia|done]).
  - destruct (decide (i < String.length value)%nat) as [Hlt|Hge].
    + rewrite tokenize_loop_S, bool_decide_eq_true_2 by done.
      destruct (first_match_exhaustive value i Hlt) as [[m name] Hm].
      rewrite Hm.
      destruct (first_match_inv _ _ _ _ _ Hm) as (r & Hin & Hr).
      apply token_types_progress in Hin as [Hmin Hname].
      apply match_at_bounds in Hr as [Hstart Hend]; [|lia].
      destruct (IH (Re.m_end m)
        (tokens ++ [Token name (Str.strip (Re.group0 value m))]))
        as (spans & -> & Htiles & Hall); [lia..|].
      exists ((i, Re.m_end m, name) :: spans). split; [|split].
      * rewrite <-(assoc_L (++)). unfold Re.group0. by rewrite Hstart.
      * cbn. repeat split; [lia|done].
      * constructor; [|done]. split; [done|]. by exists m.
    + exists []. assert (i = String.length value) as -> by lia.
      rewrite tokenize_loop_S, bool_decide_eq_false_2 by lia. done.
Qed.

(** The tokenizer returns, and what it returns. *)
Lemma tokenize_spans (value : string) :
  ∃ spans : list (nat * nat * token_type),
    _tokenize_files_to_codes_mapping value
      = Return ((token_of value <$> spans) ++ [Token _EOF ""])
    ∧ tiles (fst <$> spans) 0 (String.length value)
    ∧ Forall (matched value) spans.
Proof.
  unfold _tokenize_files_to_codes_mapping.
  destruct (tokenize_loop_spec value (String.length value) 0 [])
    as (spans & Heq & Htiles & Hall); [lia..|].
  by exists spans.
Qed.

(** C5. For every input string the tokenizer returns: it never raises its
    "unreachable" assertion, since at every position inside the input one
    of the five patterns matches, and it never loops.  The tokens it
    returns are those of the matches made at the successive cursors, whose
    spans tile the input from its first to its last character, none empty
    and with no gap, followed by one [_EOF] token, which is the only one. *)
Theorem tokenize_total_covering (value : string) :
  (∀ i, (i < String.length value)%nat →
        is_Some (first_match _FILE_LIST_TOKEN_TYPES value i))
  ∧ ∃ spans : list (nat * nat * token_type),
      _tokenize_files_to_codes_mapping value
        = Return ((token_of value <$> spans) ++ [Token _EOF ""])
      ∧ tiles (fst <$> spans) 0 (String.length value)
      ∧ Forall (matched value) spans.
Proof. split; [apply first_match_exhaustive|apply tokenize_spans]. Qed.

Lemma tokenize_total_covering_witness :
  (1 < String.length "a:b")%nat
  ∧ is_Some (first_match _FILE_LIST_TOKEN_TYPES "a:b" 1).
Proof.
  assert (1 < String.length "a:b")%nat as H by (cbn; lia).
  split; [exact H|].
  apply (proj1 (tokenize_total_covering "a:b") 1%nat H).
Defined.

(** ** CODE before FILE *)

Lemma upper_class c :
  Chr.isupper_az c = true →
  Chr.isdecimal c = false ∧ Chr.isspace c = false ∧ Chr.eqc "," c = false
  ∧ Chr.not_space_colon_comma c = true.
Proof. destruct c as [[] [] [] [] [] [] [] []]; vm_compute; by intuition. Qed.

Lemma decimal_class c :
  Chr.isdecimal c = true →
  Chr.isspace c = false ∧ Chr.eqc "," c = false
  ∧ Chr.not_space_colon_comma c = true.
Proof. destruct c as [[] [] [] [] [] [] [] []]; vm_compute; by intuition. Qed.

Lemma lf_is_space c : Chr.eqc Chr.LF c = true → Chr.isspace c = true.
Proof. unfold Chr.eqc. case_bool_decide; [by subst|done]. Qed.

Lemma ahead_at_boundary {A} pos s caps (k : Re.cont A) :
  at_boundary s = true →
  Re.run boundary_ahead pos s caps k = k pos s caps.
Proof.
  destruct s as [|c s]; [done|]. cbn.
  destruct (Chr.isspace c) eqn:Hs, (Chr.eqc "," c) eqn:Hc, s;
    try destruct (Chr.eqc Chr.LF c); cbn; done.
Qed.

Lemma ahead_not_at_boundary {A} pos s caps (k : Re.cont A) :
  at_boundary s = false →
  Re.run boundary_ahead pos s caps k = None.
Proof.
  destruct s as [|c s]; [done|]. cbn.
  intros [Hs Hc]%orb_false_iff. rewrite Hs, Hc.
  destruct s; [|done].
  destruct (Chr.eqc Chr.LF c) eqn:Hlf; [|done].
  apply lf_is_space in Hlf. congruence.
Qed.

Lemma not_boundary_after_upper s n :
  (n < Str.span Chr.isupper_az s)%nat →
  Str.span Chr.isdecimal (Str.drop n s) = O
  ∧ at_boundary (Str.drop n s) = false.
Proof.
  intros Hn. pose proof (str_span_le_length Chr.isupper_az s).
  destruct (str_drop_cons s n) as [c Hc]; [lia|].
  pose proof (str_span_drop_lt _ _ _ _ _ Hn Hc) as Hup.
  apply upper_class in Hup as (Hd & Hs & Hcomma & _).
  rewrite Hc. cbn. by rewrite Hd, Hs, Hcomma.
Qed.

Lemma not_boundary_after_decimal s n :
  (n < Str.span Chr.isdecimal s)%nat → at_boundary (Str.drop n s) = false.
Proof.
  intros Hn. pose proof (str_span_le_length Chr.isdecimal s).
  destruct (str_drop_cons s n) as [c Hc]; [lia|].
  pose proof (str_span_drop_lt _ _ _ _ _ Hn Hc) as Hup.
  apply decimal_class in Hup as (Hs & Hcomma & _).
  rewrite Hc. cbn. by rewrite Hs, Hcomma.
Qed.

(** Where the CODE pattern can stop: only after the whole run
    [[A-Z]+[0-9]*], and only with a boundary behind it. *)
Lemma code_re_sound {A} pos s caps (k : Re.cont A) x :
  Re.run CODE_RE pos s caps k = Some x →
  at_boundary (Str.drop (code_run s) s) = true
  ∧ k (pos + code_run s)%nat (Str.drop (code_run s) s) caps = Some x.
Proof.
  unfold code_run, CODE_RE. destruct s as [|c s]; [done|].
  rewrite run_cat, run_plus. cbn [Str.span].
  destruct (Chr.isupper_az c) eqn:Hc; [|done].
  intros (n1 & Hn1 & Hy)%star_sound.
  rewrite run_cat, run_star in Hy.
  apply star_sound in Hy as (n2 & Hn2 & Hy). rewrite str_drop_drop in Hy.
  destruct (decide (n1 < Str.span Chr.isupper_az s)%nat) as [Hlt|Hge].
  { destruct (not_boundary_after_upper s n1 Hlt) as [H0 Hnb].
    rewrite H0 in Hn2. assert (n2 = O) as -> by lia.
    rewrite !Nat.add_0_r, ahead_not_at_boundary in Hy; done. }
  assert (n1 = Str.span Chr.isupper_az s) as -> by lia.
  destruct (decide (n2 < Str.span Chr.isdecimal
              (Str.drop (Str.span Chr.isupper_az s) s))%nat) as [Hlt|Hge2].
  { apply not_boundary_after_decimal in Hlt. rewrite str_drop_drop in Hlt.
    rewrite ahead_not_at_boundary in Hy; done. }
  assert (n2 = Str.span Chr.isdecimal
                 (Str.drop (Str.span Chr.isupper_az s) s)) as -> by lia.
  cbn [Str.drop Nat.add].
  destruct (at_boundary _) eqn:Hb.
  - rewrite ahead_at_boundary in Hy by done. split; [done|].
    rewrite <-Hy. f_equal. lia.
  - rewrite ahead_not_at_boundary in Hy; done.
Qed.

(** The CODE pattern matches the whole run [[A-Z]+[0-9]*] when a boundary
    follows it. *)
Lemma code_re_match {A} pos s caps (k : Re.cont A) x :
  (0 < Str.span Chr.isupper_az s)%nat →
  at_boundary (Str.drop (code_run s) s) = true →
  k (pos + code_run s)%nat (Str.drop (code_run s) s) caps = Some x →
  Re.run CODE_RE pos s caps k = Some x.
Proof.
  unfold code_run, CODE_RE. destruct s as [|c s]; cbn [Str.span]; [lia|].
  rewrite run_cat, run_plus.
  destruct (Chr.isupper_az c) eqn:Hc; [|lia]. cbn [Str.drop Nat.add].
  intros _ Hb Hk.
  apply star_first. rewrite run_cat, run_star. apply star_first.
  rewrite str_drop_drop, ahead_at_boundary by done.
  rewrite <-Hk. f_equal. lia.
Qed.

(** It matches nothing when no boundary follows the run. *)
Lemma code_re_no_match {A} pos s caps (k : Re.cont A) :
  at_boundary (Str.drop (code_run s) s) = false →
  Re.run CODE_RE pos s caps k = None.
Proof.
  intros Hb. destruct (Re.run CODE_RE pos s caps k) as [y|] eqn:Hy; [|done].
  apply code_re_sound in Hy as [? _]. congruence.
Qed.

Lemma code_run_all s :
  Str.all (λ c, Chr.isupper_az c || Chr.isdecimal c)
    (Str.take (code_run s) s) = true.
Proof.
  unfold code_run. rewrite <-str_take_take_drop, str_all_app.
  apply andb_true_iff; split.
  - eapply str_all_impl; [|by apply str_all_take_span].
    by intros c ->.
  - eapply str_all_impl; [|by apply str_all_take_span].
    intros c ->. by rewrite orb_true_r.
Qed.

Lemma code_run_length s : (code_run s ≤ String.length s)%nat.
Proof.
  unfold code_run.
  pose proof (str_span_le_length Chr.isupper_az s).
  pose proof (str_span_le_length Chr.isdecimal
                (Str.drop (Str.span Chr.isupper_az s) s)) as H2.
  rewrite str_drop_length in H2. lia.
Qed.

(** The run is made of characters a file name may have. *)
Lemma code_run_in_file s :
  (code_run s ≤ Str.span Chr.not_space_colon_comma s)%nat.
Proof.
  apply str_span_ge_all; [apply code_run_length|].
  eapply str_all_impl; [|apply code_run_all].
  intros c [Hc|Hc]%orb_true_iff.
  - by apply upper_class in Hc as (_ & _ & _ & ?).
  - by apply decimal_class in Hc as (_ & _ & ?).
Qed.

Lemma slice_drop value i n :
  Str.slice i (i + n) value = Str.take n (Str.drop i value).
Proof. unfold Str.slice. f_equal. lia. Qed.

Lemma first_match_code value i :
  (0 < Str.span Chr.isupper_az (Str.drop i value))%nat →
  at_boundary (Str.drop (code_run (Str.drop i value)) (Str.drop i value)) = true →
  first_match _FILE_LIST_TOKEN_TYPES value i
    = Some ({| Re.m_start := i;
               Re.m_end := i + code_run (Str.drop i value);
               Re.m_groups := [] |}, _CODE).
Proof.
  intros Hup Hb. unfold _FILE_LIST_TOKEN_TYPES. cbn [first_match].
  change (Plus Chr.isupper_az ⨾ _) with CODE_RE.
  unfold Re.match_at at 1. by erewrite code_re_match.
Qed.

Lemma first_match_file value i :
  (0 < Str.span Chr.isupper_az (Str.drop i value))%nat →
  at_boundary (Str.drop (code_run (Str.drop i value)) (Str.drop i value)) = false →
  first_match _FILE_LIST_TOKEN_TYPES value i
    = Some ({| Re.m_start := i;
               Re.m_end := i + Str.span Chr.not_space_colon_comma
                                 (Str.drop i value);
               Re.m_groups := [] |}, _FILE).
Proof.
  intros Hup Hb. unfold _FILE_LIST_TOKEN_TYPES. cbn [first_match].
  change (Plus Chr.isupper_az ⨾ _) with CODE_RE.
  unfold Re.match_at at 1. rewrite code_re_no_match by done.
  unfold Re.match_at. destruct (Str.drop i value) as [|c s]; cbn in Hup; [lia|].
  destruct (Chr.isupper_az c) eqn:Hc; [|lia].
  apply upper_class in Hc as (_ & _ & _ & Hf).
  rewrite run_plus, Hf. cbn [Str.span]. rewrite Hf.
  erewrite star_first; [|reflexivity]. do 3 f_equal. lia.
Qed.

(** C6. The table is tried in order, [_CODE] before [_FILE]. At any cursor
    [i] where a capital letter stands, let the run be the longest text
    [[A-Z]+[0-9]*] from [i]. When the run is followed by the end of the
    input, whitespace or a comma, the token made at [i] is the [_CODE]
    token of the run; otherwise it is a [_FILE] token, whose text starts
    with the run and goes on to the next whitespace, colon or comma. So
    "E501" alone is a [_CODE] token, and "E501:..." and "E501x" give
    [_FILE] tokens. *)
Theorem code_before_file :
  (∀ (value : string) (i : nat),
     let s := Str.drop i value in
     (0 < Str.span Chr.isupper_az s)%nat →
     (code_run s ≤ Str.span Chr.not_space_colon_comma s)%nat
     ∧ ∃ m name,
         first_match _FILE_LIST_TOKEN_TYPES value i = Some (m, name)
         ∧ if at_boundary (Str.drop (code_run s) s)
           then name = _CODE
                ∧ Re.m_end m = (i + code_run s)%nat
                ∧ Str.strip (Re.group0 value m) = Str.take (code_run s) s
           else name = _FILE
                ∧ Re.m_end m = (i + Str.span Chr.not_space_colon_comma s)%nat
                ∧ Str.strip (Re.group0 value m)
                  = Str.take (Str.span Chr.not_space_colon_comma s) s)
  ∧ _tokenize_files_to_codes_mapping "E501"
    = Return [Token _CODE "E501"; Token _EOF ""]
  ∧ _tokenize_files_to_codes_mapping "E501:E502"
    = Return [Token _FILE "E501"; Token _COLON ":"; Token _CODE "E502";
              Token _EOF ""]
  ∧ _tokenize_files_to_codes_mapping "E501x E5,E"
    = Return [Token _FILE "E501x"; Token _WS ""; Token _CODE "E5";
              Token _COMMA ","; Token _CODE "E"; Token _EOF ""].
Proof.
  split; [|by vm_compute].
  intros value i s Hup. split; [apply code_run_in_file|].
  destruct (at_boundary (Str.drop (code_run s) s)) eqn:Hb.
  - eexists _, _. split; [by apply first_match_code|].
    split; [done|]. split; [done|].
    unfold Re.group0. cbn [Re.m_start Re.m_end]. rewrite slice_drop.
    apply strip_id. eapply str_all_impl; [|apply code_run_all].
    intros c [Hc|Hc]%orb_true_iff.
    + apply upper_class in Hc as (_ & -> & _). done.
    + apply decimal_class in Hc as (-> & _). done.
  - eexists _, _. split; [by apply first_match_file|].
    split; [done|]. split; [done|].
    unfold Re.group0. cbn [Re.m_start Re.m_end]. rewrite slice_drop.
    apply strip_id. eapply str_all_impl; [|by apply str_all_take_span].
    intros c. unfold Chr.not_space_colon_comma.
    by destruct (Chr.isspace c).
Qed.

Lemma code_before_file_witness :
  (0 < Str.span Chr.isupper_az (Str.drop 2 "x E501,y"))%nat
  ∧ ∃ m name,
      first_match _FILE_LIST_TOKEN_TYPES "x E501,y" 2 = Some (m, name)
      ∧ name = _CODE ∧ Re.m_end m = 6%nat
      ∧ Str.strip (Re.group0 "x E501,y" m) = "E501".
Proof.
  assert (0 < Str.span Chr.isupper_az (Str.drop 2 "x E501,y"))%nat as H
    by (vm_compute; lia).
  split; [exact H|].
  destruct (proj1 code_before_file "x E501,y" 2%nat H)
    as (_ & m & name & Hm & Hcode).
  exists m, name. split; [exact Hm|exact Hcode].
Defined.

(** ** The mapping parser, step by step *)

(** C3. In the collecting-codes state, with codes accumulated and a
    separator seen, a [_FILE] token flushes the group (one pair per
    filename of the group, each with the accumulated codes) and starts a
    new group whose first filename is the token; so
    "a.py: E501 b.py: E502" gives a.py its E501 and b.py its E502. *)
Theorem file_after_codes_starts_group :
  (∀ (value : string) (token : _Token) (st : State) (ret : mapping),
     tp token = _FILE → seen_colon st = true → seen_sep st = true →
     codes st ≠ [] →
     parse_step value token st ret
       = Return (mkState false false [src token] [],
                 ret ++ ((λ filename, (filename, codes st)) <$> filenames st)))
  ∧ parse_files_to_codes_mapping (inr "a.py: E501 b.py: E502")
    = Return [("a.py", ["E501"]); ("b.py", ["E502"])].
Proof.
  split; [|by vm_compute].
  intros value [ty x] [b c F C] ret; cbn. intros -> -> -> HC.
  unfold parse_step, _reset; cbn. by destruct C.
Qed.

Lemma file_after_codes_starts_group_witness :
  parse_step "a.py: E501 b.py: E502" (Token _FILE "b.py")
    (mkState true true ["a.py"] ["E501"]) []
  = Return (mkState false false ["b.py"] [], [("a.py", ["E501"])]).
Proof.
  apply (proj1 file_after_codes_starts_group
           "a.py: E501 b.py: E502" (Token _FILE "b.py")
           (mkState true true ["a.py"] ["E501"]) []); cbn; done.
Defined.

(** While codes are collected and none has been read yet, a separator has
    been seen: the colon counts as one. *)
Lemma reachable_sep_after_colon value st ret :
  reachable value st ret →
  seen_colon st = true → codes st = [] → seen_sep st = true.
Proof.
  destruct 1 as [|[ty x] [b c F C] ret0 st' ret' _ Hstep]; [done|].
  unfold parse_step, _reset in Hstep; cbn in Hstep.
  repeat case_bool_decide; destruct b, c; cbn in Hstep; simplify_eq; cbn;
    try done.
  all: intros _ HH; try by apply app_nil in HH as [_ [=]].
Qed.

(** C4, as the code has it. A [_FILE] token met in the collecting-codes
    state before any code has been read is accepted: the filenames of the
    group read so far are dropped, nothing is emitted for them, and the
    token becomes the first filename of a new group. So
    "a.py: b.py: E501" returns the single pair of b.py. *)
Theorem file_after_colon_starts_group :
  (∀ (value : string) (token : _Token) (st : State) (ret : mapping),
     reachable value st ret →
     tp token = _FILE → seen_colon st = true → codes st = [] →
     parse_step value token st ret
       = Return (mkState false false [src token] [], ret))
  ∧ parse_files_to_codes_mapping (inr "a.py: b.py: E501")
    = Return [("b.py", ["E501"])].
Proof.
  split; [|by vm_compute].
  intros value [ty x] st ret Hreach Hty Hcolon Hcodes.
  pose proof (reachable_sep_after_colon _ _ _ Hreach Hcolon Hcodes) as Hsep.
  destruct st as [b c F C]; cbn in *; subst.
  done.
Qed.

Lemma file_after_colon_starts_group_witness :
  parse_step "a.py: b.py: E501" (Token _FILE "b.py")
    (mkState true true ["a.py"] []) []
  = Return (mkState false false ["b.py"] [], []).
Proof.
  apply (proj1 file_after_colon_starts_group
           "a.py: b.py: E501" (Token _FILE "b.py")
           (mkState true true ["a.py"] []) []); [|done..].
  apply (reach_step _ (Token _COLON ":") (mkState false false ["a.py"] []) []);
    [|done].
  apply (reach_step _ (Token _FILE "a.py") State0 []); [|done].
  apply reach_init.
Defined.

(** The claim of C4 fails on its own example: the input is not rejected. *)
Lemma file_after_colon_is_not_rejected :
  parse_files_to_codes_mapping (inr "a.py: b.py: E501")
    = Return [("b.py", ["E501"])]
  ∧ ¬ ∃ e, parse_files_to_codes_mapping (inr "a.py: b.py: E501") = Raise e.
Proof.
  assert (parse_files_to_codes_mapping (inr "a.py: b.py: E501")
          = Return [("b.py", ["E501"])]) as H by (by vm_compute).
  split; [done|]. intros [e He]. rewrite H in He. done.
Qed.

(** ** Errors of the mapping parser *)

Lemma parse_step_raise value token st ret e :
  parse_step value token st ret = Raise e → e = _unexpected_token value.
Proof.
  unfold parse_step. destruct (_reset st ret) as [st' ret'].
  repeat (case_bool_decide || case_match); cbn; congruence.
Qed.

Lemma parse_step_returns value token st ret :
  parse_step value token st ret ≠ Diverge.
Proof.
  unfold parse_step. destruct (_reset st ret) as [st' ret'].
  repeat (case_bool_decide || case_match); cbn; congruence.
Qed.

Lemma parse_loop_raise value tokens : ∀ st ret e,
  parse_loop value tokens st ret = Raise e → e = _unexpected_token value.
Proof.
  induction tokens as [|token tokens IH]; intros st ret e; cbn; [done|].
  destruct (parse_step value token st ret) as [[st' ret']|e'|] eqn:Hstep; cbn.
  - apply IH.
  - intros [= <-]. by eapply parse_step_raise.
  - done.
Qed.

Lemma parse_loop_returns value tokens : ∀ st ret,
  parse_loop value tokens st ret ≠ Diverge.
Proof.
  induction tokens as [|token tokens IH]; intros st ret; cbn; [done|].
  destruct (parse_step value token st ret) as [[st' ret']|e'|] eqn:Hstep; cbn.
  - apply IH.
  - done.
  - by apply parse_step_returns in Hstep.
Qed.

Lemma unexpected_token_message value :
  _unexpected_token value
  = ExecutionError (unexpected_header
                    +:+ Str.indent (Str.strip value) "    ").
Proof. reflexivity. Qed.

(** C7, as the code has it. "a.py:: E501" is rejected with the
    configuration-format error, an [ExecutionError]. Whatever the input,
    the parser raises nothing else (and always comes back), and the
    message of the error is the fixed header followed by the input text
    stripped of the whitespace at its two ends and indented by four
    spaces. *)
Theorem unexpected_token_error :
  parse_files_to_codes_mapping (inr "a.py:: E501")
    = Raise (ExecutionError (unexpected_header +:+ "    a.py:: E501"))
  ∧ (∀ value_, parse_files_to_codes_mapping value_ ≠ Diverge)
  ∧ ∀ (value_ : list string + string) (e : exn),
      parse_files_to_codes_mapping value_ = Raise e →
      e = ExecutionError
            (unexpected_header
             +:+ Str.indent (Str.strip (mapping_text value_)) "    ").
Proof.
  split; [by vm_compute|].
  assert (∀ value_ : list string + string,
    parse_files_to_codes_mapping value_ = Return []
    ∨ ∃ tokens,
        parse_files_to_codes_mapping value_
          = parse_loop (mapping_text value_) tokens State0 []) as Hparse.
  { intros value_. unfold parse_files_to_codes_mapping.
    fold (mapping_text value_).
    destruct (Str.strip (mapping_text value_)); [by left|right].
    destruct (tokenize_spans (mapping_text value_)) as (spans & -> & _).
    by eexists. }
  split.
  - intros value_. destruct (Hparse value_) as [->|[tokens ->]]; [done|].
    apply parse_loop_returns.
  - intros value_ e. destruct (Hparse value_) as [->|[tokens ->]]; [done|].
    intros ->%parse_loop_raise. apply unexpected_token_message.
Qed.

Lemma unexpected_token_error_witness :
  parse_files_to_codes_mapping (inr "f.py:E1 :")
    = Raise (ExecutionError (unexpected_header +:+ "    f.py:E1 :"))
  ∧ ExecutionError (unexpected_header +:+ "    f.py:E1 :")
    = ExecutionError
        (unexpected_header
         +:+ Str.indent (Str.strip (mapping_text (inr "f.py:E1 :"))) "    ").
Proof.
  split; [by vm_compute|].
  apply (proj2 (proj2 unexpected_token_error) (inr "f.py:E1 :")).
  by vm_compute.
Defined.

(** The claim of C7 fails where the input ends with whitespace: the
    message has the stripped text, so neither the input text nor its
    indentation occurs in it. *)
Lemma message_lacks_full_input :
  ∃ msg,
    parse_files_to_codes_mapping (inr "a.py:: E501 ")
      = Raise (ExecutionError msg)
    ∧ Str.contains "a.py:: E501 " msg = false
    ∧ Str.contains (Str.indent "a.py:: E501 " "    ") msg = false.
Proof. eexists. by vm_compute. Qed.

(** ** The mapping parser on well-formed mappings *)

Section parse_loop_facts.
Variable value : string.
Implicit Types (F C : list string) (ret : mapping) (rest : list _Token).

Lemma parse_loop_cons token rest st ret st' ret' :
  parse_step value token st ret = Return (st', ret') →
  parse_loop value (token :: rest) st ret = parse_loop value rest st' ret'.
Proof. intros H. cbn [parse_loop]. by rewrite H. Qed.

Lemma step_sep t b c F C ret :
  sep t →
  parse_step value t (mkState b c F C) ret = Return (mkState true c F C, ret).
Proof.
  unfold parse_step. intros [-> | ->]; cbn [seen_colon filenames codes];
    by rewrite ?bool_decide_eq_true_2, ?orb_true_r by done.
Qed.

Lemma step_colon t b F C ret :
  tp t = _COLON →
  parse_step value t (mkState b false F C) ret
    = Return (mkState true true F C, ret).
Proof. unfold parse_step. by intros ->. Qed.

Lemma step_file x F C ret :
  parse_step value (Token _FILE x) (mkState true false F C) ret
    = Return (mkState false false (F ++ [x]) C, ret).
Proof. done. Qed.

Lemma step_code x F C ret :
  parse_step value (Token _CODE x) (mkState true true F C) ret
    = Return (mkState false true F (C ++ [x]), ret).
Proof. done. Qed.

Lemma step_file_next x F C ret :
  C ≠ [] →
  parse_step value (Token _FILE x) (mkState true true F C) ret
    = Return (mkState false false [x] [], ret ++ pairs_of (F, C)).
Proof. by destruct C. Qed.

Lemma step_eof t b F C ret :
  tp t = _EOF → C ≠ [] →
  parse_step value t (mkState b true F C) ret
    = Return (State0, ret ++ pairs_of (F, C)).
Proof. unfold parse_step. intros ->. by destruct C. Qed.

Lemma loop_seps seps rest : ∀ b c F C ret,
  Forall sep seps →
  parse_loop value (seps ++ rest) (mkState b c F C) ret
    = parse_loop value rest
        (mkState (b || negb (bool_decide (seps = []))) c F C) ret.
Proof.
  induction seps as [|t seps IH]; intros b c F C ret Hseps.
  - cbn [app]. by rewrite bool_decide_eq_true_2, orb_false_r by done.
  - apply Forall_cons in Hseps as [Ht Hseps]. cbn [app].
    erewrite parse_loop_cons by (by apply step_sep).
    rewrite IH by done. by rewrite orb_true_r.
Qed.

Lemma loop_seps_ne seps rest b c F C ret :
  seps ≠ [] → Forall sep seps →
  parse_loop value (seps ++ rest) (mkState b c F C) ret
    = parse_loop value rest (mkState true c F C) ret.
Proof.
  intros Hne Hseps. rewrite loop_seps by done.
  by rewrite bool_decide_eq_false_2, orb_true_r by done.
Qed.

Lemma loop_more_files toks xs rest : ∀ F C ret,
  more _FILE toks xs →
  parse_loop value (toks ++ rest) (mkState false false F C) ret
    = parse_loop value rest (mkState false false (F ++ xs) C) ret.
Proof.
  intros F C ret Hmore. revert F.
  induction Hmore as [|seps x toks xs Hne Hseps _ IH]; intros F.
  - by rewrite app_nil_r.
  - rewrite <-(assoc_L (++)). rewrite loop_seps_ne by done.
    rewrite <-app_comm_cons. erewrite parse_loop_cons by apply step_file.
    by rewrite IH, <-(assoc_L (++)).
Qed.

Lemma loop_more_codes toks xs rest : ∀ F C ret,
  more _CODE toks xs →
  parse_loop value (toks ++ rest) (mkState false true F C) ret
    = parse_loop value rest (mkState false true F (C ++ xs)) ret.
Proof.
  intros F C ret Hmore. revert C.
  induction Hmore as [|seps x toks xs Hne Hseps _ IH]; intros C.
  - by rewrite app_nil_r.
  - rewrite <-(assoc_L (++)). rewrite loop_seps_ne by done.
    rewrite <-app_comm_cons. erewrite parse_loop_cons by apply step_code.
    by rewrite IH, <-(assoc_L (++)).
Qed.

Lemma loop_group toks g rest st ret :
  group_tokens toks g → group_start st →
  g.2 ≠ []
  ∧ parse_loop value (toks ++ rest) st ret
    = parse_loop value rest (mkState false true g.1 g.2) (ret ++ pending st).
Proof.
  intros Hg Hst.
  destruct Hg as [ftoks fs s1 colon s2 ctoks cs Hf Hs1 Hcolon Hs2 Hc].
  destruct Hf as [f ftl fs Hfs], Hc as [cd ctl cs Hcs]. cbn [fst snd].
  split; [done|].
  assert (parse_loop value
            (((Token _FILE f :: ftl) ++ s1 ++ colon :: s2
                ++ Token _CODE cd :: ctl) ++ rest) st ret
          = parse_loop value
              (ftl ++ s1 ++ colon :: s2 ++ Token _CODE cd :: ctl ++ rest)
              (mkState false false [f] []) (ret ++ pending st)) as ->.
  { rewrite <-!app_comm_cons, <-!(assoc_L (++)), <-!app_comm_cons.
    rewrite <-!(assoc_L (++)), <-!app_comm_cons.
    apply parse_loop_cons.
    destruct st as [b [] F C], Hst as [Hb HC]; cbn in Hb, HC; subst b.
    - by rewrite step_file_next.
    - destruct HC as [-> ->]. unfold pending; cbn. by rewrite app_nil_r. }
  rewrite (loop_more_files ftl fs) by done. rewrite loop_seps by done.
  erewrite parse_loop_cons by (by apply step_colon).
  rewrite loop_seps by done. cbn [orb].
  erewrite parse_loop_cons by apply step_code.
  by rewrite (loop_more_codes ctl cs).
Qed.

Lemma loop_groups body gs : ∀ st ret seps eof,
  groups_tokens body gs → group_start st → Forall sep seps →
  tp eof = _EOF →
  parse_loop value (body ++ seps ++ [eof]) st ret
    = Return (ret ++ pending st ++ declared gs).
Proof.
  intros st ret seps eof Hgs. revert st ret.
  induction Hgs as [toks g Hg|toks g seps' toks' gs Hg Hne Hseps' _ IH];
    intros st ret Hst Hseps Heof.
  - destruct (loop_group toks g (seps ++ [eof]) st ret Hg Hst) as [Hc ->].
    rewrite loop_seps by done.
    erewrite parse_loop_cons by (by apply step_eof).
    unfold declared. cbn. by rewrite app_nil_r, <-(assoc_L (++)).
  - rewrite <-!(assoc_L (++)).
    destruct (loop_group toks g (seps' ++ toks' ++ seps ++ [eof]) st ret
                Hg Hst) as [Hc ->].
    rewrite loop_seps_ne by done.
    rewrite IH; [|done..].
    unfold declared, pending. cbn. by rewrite <-!(assoc_L (++)).
Qed.

End parse_loop_facts.

Lemma lstrip_all_space s :
  Str.all Chr.isspace (Str.lstrip s) = Str.all Chr.isspace s.
Proof.
  induction s as [|c s IH]; [done|]. cbn.
  destruct (Chr.isspace c) eqn:Hc; [done|]. cbn. by rewrite Hc.
Qed.

Lemma rstrip_empty s : Str.rstrip s = "" → Str.all Chr.isspace s = true.
Proof.
  induction s as [|c s IH]; [done|]. cbn.
  destruct (Str.rstrip s); [|done].
  destruct (Chr.isspace c); [|done]. intros _. by apply IH.
Qed.

Lemma strip_empty s : Str.strip s = "" → Str.all Chr.isspace s = true.
Proof.
  unfold Str.strip. intros H%rstrip_empty. by rewrite lstrip_all_space in H.
Qed.

Lemma str_all_drop p s n : Str.all p s = true → Str.all p (Str.drop n s) = true.
Proof.
  revert s; induction n as [|n IH]; intros [|c s]; cbn; try done.
  intros [_ ?]%andb_true_iff. by apply IH.
Qed.

(** A [_FILE] token comes from a character that is not whitespace. *)
Lemma file_token_not_blank value tokens f :
  _tokenize_files_to_codes_mapping value = Return tokens →
  Token _FILE f ∈ tokens → Str.strip value ≠ "".
Proof.
  destruct (tokenize_spans value) as (spans & -> & _ & Hall).
  intros [= <-] [Hin|[=]%list_elem_of_singleton]%elem_of_app.
  apply list_elem_of_fmap in Hin as ([[a b] name] & Htok & Hin).
  unfold token_of in Htok; cbn in Htok. injection Htok as <- _.
  rewrite Forall_forall in Hall.
  destruct (Hall _ Hin) as (_ & m & Hm & _); cbn [fst snd] in Hm.
  apply first_match_inv in Hm as (r & Hr & Hm).
  assert (r = Plus Chr.not_space_colon_comma) as ->.
  { unfold _FILE_LIST_TOKEN_TYPES in Hr.
    rewrite !elem_of_cons, elem_of_nil in Hr.
    destruct Hr as [[=]|[[=]|[[=]|[[=]|[[=]|[]]]]]]. done. }
  unfold Re.match_at in Hm.
  intros Hall_space%strip_empty. apply (str_all_drop _ _ a) in Hall_space.
  destruct (Str.drop a value) as [|c s]; [done|].
  rewrite run_plus in Hm. cbn in Hall_space.
  apply andb_true_iff in Hall_space as [Hc _].
  unfold Chr.not_space_colon_comma in Hm. by rewrite Hc in Hm.
Qed.

Lemma groups_have_file body gs :
  groups_tokens body gs → ∃ f, Token _FILE f ∈ body.
Proof.
  assert (∀ toks g, group_tokens toks g → ∃ f, Token _FILE f ∈ toks) as Hg.
  { intros toks g [ftoks fs s1 colon s2 ctoks cs [f ftl fs' _] _ _ _ _].
    exists f. apply elem_of_app. left. left. }
  destruct 1 as [toks g H|toks g seps toks' gs H _ _ _];
    destruct (Hg _ _ H) as [f Hf]; exists f; [done|].
  apply elem_of_app. by left.
Qed.

(** C1. A mapping is well formed when its tokens are those of groups
    [filename[,filename...] : CODE[,CODE...]] with commas and whitespace as
    separators. For every such mapping the parser returns, in the order of
    declaration, one pair per filename declared, each filename paired with
    the codes of its group in their order. In particular
    "a.py,b.py: E501,E502" gives both files the two codes. *)
Theorem parse_well_formed_mapping :
  (∀ (value_ : list string + string) (tokens : list _Token)
     (gs : list (list string * list string)),
     _tokenize_files_to_codes_mapping (mapping_text value_) = Return tokens →
     well_formed tokens gs →
     parse_files_to_codes_mapping value_ = Return (declared gs))
  ∧ parse_files_to_codes_mapping (inr "a.py,b.py: E501,E502")
    = Return [("a.py", ["E501"; "E502"]); ("b.py", ["E501"; "E502"])].
Proof.
  split; [|by vm_compute].
  intros value_ tokens gs Htok (s0 & body & s1 & eof & -> & Hs0 & Hgs & Hs1 & Heof).
  unfold parse_files_to_codes_mapping. fold (mapping_text value_).
  destruct (groups_have_file _ _ Hgs) as [f Hf].
  pose proof (file_token_not_blank _ _ f Htok) as Hne.
  destruct (Str.strip (mapping_text value_)).
  { exfalso. apply Hne; [|done]. rewrite !elem_of_app. auto. }
  rewrite Htok. cbn [mbind outcome_bind].
  change State0 with (mkState true false [] []).
  rewrite loop_seps by done. cbn [orb].
  erewrite loop_groups; [done|done| |done..].
  by split.
Qed.

Lemma parse_well_formed_mapping_witness :
  parse_files_to_codes_mapping (inr "a.py,b.py: E501,E502")
    = Return (declared [(["a.py"; "b.py"], ["E501"; "E502"])]).
Proof.
  apply (proj1 parse_well_formed_mapping (inr "a.py,b.py: E501,E502")
           [Token _FILE "a.py"; Token _COMMA ","; Token _FILE "b.py";
            Token _COLON ":"; Token _CODE "E501"; Token _COMMA ",";
            Token _CODE "E502"; Token _EOF ""]).
  - by vm_compute.
  - exists [], [Token _FILE "a.py"; Token _COMMA ","; Token _FILE "b.py";
               Token _COLON ":"; Token _CODE "E501"; Token _COMMA ",";
               Token _CODE "E502"], [], (Token _EOF "").
    split; [done|]. split; [constructor|]. split; [|by split].
    apply groups_one.
    apply (group_intro
             [Token _FILE "a.py"; Token _COMMA ","; Token _FILE "b.py"]
             ["a.py"; "b.py"] [] (Token _COLON ":") []
             [Token _CODE "E501"; Token _COMMA ","; Token _CODE "E502"]
             ["E501"; "E502"]); try done.
    + apply items_intro.
      apply (more_cons _FILE [Token _COMMA ","] "b.py" [] []); try done.
      * repeat constructor.
      * constructor.
    + apply items_intro.
      apply (more_cons _CODE [Token _COMMA ","] "E502" [] []); try done.
      * repeat constructor.
      * constructor.
Defined.

(** ** The hunk-header pattern *)

Section matches_inv.
Implicit Types (r : regex) (s : string) (caps : Re.captures).

Lemma matches_cat_inv r1 r2 pos s caps n caps' :
  Re.matches (r1 ⨾ r2) pos s caps n caps' →
  ∃ n1 caps1 n2,
    n = (n1 + n2)%nat ∧ Re.matches r1 pos s caps n1 caps1
    ∧ Re.matches r2 (pos + n1) (Str.drop n1 s) caps1 n2 caps'.
Proof. inversion 1; subst. by eexists _, _, _. Qed.

Lemma matches_lit_inv a pos s caps n caps' :
  Re.matches (Lit a) pos s caps n caps' →
  ∃ s', s = String a s' ∧ n = 1%nat ∧ caps' = caps.
Proof. inversion 1; subst. by eexists. Qed.

Lemma matches_plus_inv p pos s caps n caps' :
  Re.matches (Plus p) pos s caps n caps' →
  (0 < n ≤ Str.span p s)%nat ∧ caps' = caps.
Proof. by inversion 1; subst. Qed.

Lemma matches_star_inv p pos s caps n caps' :
  Re.matches (Star p) pos s caps n caps' →
  (n ≤ Str.span p s)%nat ∧ caps' = caps.
Proof. by inversion 1; subst. Qed.

Lemma matches_opt_inv r pos s caps n caps' :
  Re.matches (Opt r) pos s caps n caps' →
  Re.matches r pos s caps n caps' ∨ (n = O ∧ caps' = caps).
Proof. inversion 1; subst; auto. Qed.

Lemma matches_group_inv i r pos s caps n caps' :
  Re.matches (Group i r) pos s caps n caps' →
  ∃ caps1, Re.matches r pos s caps n caps1
           ∧ caps' = <[i := Some (Str.take n s)]> caps1.
Proof. inversion 1; subst. by eexists. Qed.

Lemma matches_empty_inv r pos s caps n caps' :
  r = Bos ∨ r = Eos ∨ r = Eps →
  Re.matches r pos s caps n caps' → n = O ∧ caps' = caps.
Proof. intros [->|[->| ->]]; by inversion 1. Qed.

End matches_inv.

(** Takes a match of a sequence apart, from left to right. *)
Ltac inv_matches H :=
  lazymatch type of H with
  | Re.matches (Cat _ _) _ _ _ _ _ =>
      let H1 := fresh "Hm" in
      let H2 := fresh "Hm" in
      apply matches_cat_inv in H as (? & ? & ? & -> & H1 & H2);
      inv_matches H1; cbn [Str.drop Nat.add] in H2; inv_matches H2
  | Re.matches (Lit _) _ _ _ _ _ =>
      let E := fresh "Hs" in
      apply matches_lit_inv in H as (? & E & -> & ->);
      lazymatch type of E with
      | ?s = _ => first [is_var s; subst s | rewrite E in *]
      end
  | Re.matches (Plus _) _ _ _ _ _ =>
      apply matches_plus_inv in H as (? & ->)
  | Re.matches (Star _) _ _ _ _ _ =>
      apply matches_star_inv in H as (? & ->)
  | Re.matches (Opt _) _ _ _ _ _ =>
      apply matches_opt_inv in H as [H|[-> ->]]; [inv_matches H|]
  | Re.matches (Group _ _) _ _ _ _ _ =>
      apply matches_group_inv in H as (? & H & ->); inv_matches H
  | Re.matches _ _ _ _ _ _ =>
      apply matches_empty_inv in H as [-> ->]; [|by auto]
  end.

Lemma take_span_digits s n :
  (0 < n ≤ Str.span Chr.isdecimal s)%nat → digits (Str.take n s).
Proof.
  intros [Hn Hspan]. split; [|by apply str_all_take_span].
  destruct s, n; cbn in *; (lia || done).
Qed.

Lemma int_from_digits s : ∀ acc,
  0 ≤ acc → Str.all Chr.isdecimal s = true →
  ∃ z, Str.int_from acc s = Some z ∧ 0 ≤ z.
Proof.
  induction s as [|c s IH]; intros acc Hacc; cbn.
  - intros _. by exists acc.
  - intros [Hc Hs]%andb_true_iff. unfold Str.digit. rewrite Hc.
    apply IH; [|done].
    unfold Chr.isdecimal, Chr.between in Hc.
    apply andb_true_iff in Hc as [Hlo%N.leb_le _]. lia.
Qed.

Lemma int_digits s : digits s → ∃ z, Str.int s = Some z ∧ 0 ≤ z.
Proof.
  intros [Hne Hall]. unfold Str.int. destruct s; [done|].
  by apply int_from_digits.
Qed.

(** Where the pattern matches, the line starts with "@@ -", the first
    group is a text of digits and the second one is absent or a text of
    digits. *)
Lemma hunk_match_groups line m :
  Re.match_at DIFF_HUNK_REGEXP line 0 = Some m →
  Str.take 4 line = "@@ -"
  ∧ ∃ start count,
      Re.m_groups m = [Some start; count]
      ∧ digits start ∧ from_option digits True count.
Proof.
  unfold Re.match_at. intros (n & caps & Hm & [= <-])%run_sound.
  cbn [Re.m_groups]. rewrite str_drop_0 in Hm.
  unfold DIFF_HUNK_REGEXP in Hm. cbn [text] in Hm.
  cbn [Re.ngroups Nat.add replicate] in Hm.
  inv_matches Hm.
  all: split; [done|]; eexists _, _; split; [reflexivity|].
  all: split; cbn; auto using take_span_digits.
Qed.

(** ** The unified-diff parser, line by line *)

Lemma prefix_take p s :
  Str.prefix p s = bool_decide (Str.take (String.length p) s = p).
Proof.
  revert s; induction p as [|a p IH]; intros [|b s]; cbn; try done.
  rewrite IH. repeat case_bool_decide; cbn; congruence.
Qed.

Lemma hunk_header_match line m :
  Re.match_at DIFF_HUNK_REGEXP line 0 = Some m →
  Str.prefix "+++" line = false
  ∧ ∃ row count,
      hunk_header line = Some (row, count)
      ∧ group_values (Re.m_groups m) = Return [row; count]
      ∧ 0 ≤ row ∧ 0 ≤ count.
Proof.
  intros Hm. unfold hunk_header. rewrite Hm.
  apply hunk_match_groups in Hm
    as (Hat & start & count & -> & Hstart & Hcount).
  split.
  { destruct line as [|c1 [|c2 [|c3 [|c4 line]]]]; cbn in Hat; try done.
    by injection Hat as -> -> -> ->. }
  destruct (int_digits _ Hstart) as (row & Hrow & ?).
  assert (group_value (Some start) = Return row) as Hv1.
  { cbn. rewrite Hrow. destruct Hstart as [? _]. by destruct start. }
  unfold decimal. rewrite Hrow. cbn [default].
  destruct count as [count|]; cbn [from_option] in *.
  - destruct (int_digits _ Hcount) as (cnt & Hcnt & ?).
    assert (group_value (Some count) = Return cnt) as Hv2.
    { cbn. rewrite Hcnt. destruct Hcount as [? _]. by destruct count. }
    exists row, cnt. rewrite Hcnt. cbn [default].
    cbn [group_values]. rewrite Hv1, Hv2. done.
  - exists row, 1. cbn [group_values]. rewrite Hv1. done.
Qed.

Lemma hunk_header_None line :
  hunk_header line = None → Re.match_at DIFF_HUNK_REGEXP line 0 = None.
Proof.
  destruct (Re.match_at DIFF_HUNK_REGEXP line 0) as [m|] eqn:Hm; [|done].
  apply hunk_header_match in Hm as (_ & row & count & -> & _). done.
Qed.

Section diff_step_facts.
Implicit Types (line : string) (st : DiffState).

(** Inside a hunk body. *)
Lemma diff_step_body line st n :
  number_of_rows st = Some n → n ≠ 0 →
  diff_step line st
    = Return (mkDiff (Some (if Str.prefix "-" line then n else n - 1))
                (current_path st) (parsed_paths st)).
Proof.
  intros Hn Hn0. unfold diff_step, truthy. rewrite Hn.
  destruct (Z.eqb_spec n 0) as [|_]; [done|]. cbn [negb].
  rewrite (prefix_take "-"). cbn [String.length].
  destruct st as [rows path parsed]; cbn in *. subst rows.
  destruct line as [|c line]; [done|].
  cbn [Str.take]. rewrite (bool_decide_eq_false_2 (String c line = "")) by done.
  cbn [orb]. by case_bool_decide.
Qed.

(** Outside a hunk body, a [+++] line. *)
Lemma diff_step_path line st :
  truthy (number_of_rows st) = false → Str.prefix "+++" line = true →
  diff_step line st
    = Return (mkDiff (number_of_rows st) (Some (path_of line))
                (parsed_paths st)).
Proof.
  intros Hrows Hplus. unfold diff_step. rewrite Hrows.
  rewrite prefix_take in Hplus. cbn [String.length] in Hplus.
  rewrite Hplus. unfold path_of. by rewrite (prefix_take "b/").
Qed.

(** Outside a hunk body, a hunk header. *)
Lemma diff_step_header line st row count :
  truthy (number_of_rows st) = false →
  hunk_header line = Some (row, count) →
  diff_step line st
    = match current_path st with
      | None => Raise AssertionError
      | Some path =>
          Return (mkDiff (Some count) (Some path)
                    (<[path := default ∅ (parsed_paths st !! path)
                                 ∪ range row (row + count)]>
                       (parsed_paths st)))
      end.
Proof.
  intros Hrows Hh. unfold diff_step. rewrite Hrows.
  destruct (Re.match_at DIFF_HUNK_REGEXP line 0) as [m|] eqn:Hm.
  - apply hunk_header_match in Hm as (Hplus & row' & count' & Hh' & -> & _).
    rewrite prefix_take in Hplus. cbn [String.length] in Hplus.
    rewrite Hplus. by simplify_eq.
  - unfold hunk_header in Hh. by rewrite Hm in Hh.
Qed.

(** Outside a hunk body, any other line. *)
Lemma diff_step_other line st :
  truthy (number_of_rows st) = false →
  Str.prefix "+++" line = false → hunk_header line = None →
  diff_step line st = Return st.
Proof.
  intros Hrows Hplus Hh%hunk_header_None. unfold diff_step.
  rewrite Hrows, Hh.
  rewrite prefix_take in Hplus. cbn [String.length] in Hplus.
  by rewrite Hplus.
Qed.

End diff_step_facts.

(** C8. Inside a hunk body, that is while the countdown is set and
    positive, a line does one thing only: it takes one off the countdown
    unless it starts with "-". The path and the line numbers recorded stay
    as they are, whatever the line is; so a "+++" line and a "@@" line
    inside the body of a hunk are passed over. *)
Theorem hunk_body_counts_down :
  (∀ (line : string) (st : DiffState) (n : Z),
     number_of_rows st = Some n → 0 < n →
     diff_step line st
       = Return (mkDiff (Some (if Str.prefix "-" line then n else n - 1))
                   (current_path st) (parsed_paths st)))
  ∧ parse_unified_diff body_diff = Return {[ "a.py" := {[1; 2]} ]}.
Proof.
  split; [|by vm_compute].
  intros line st n Hn Hpos. apply diff_step_body; [done|lia].
Qed.

Lemma hunk_body_counts_down_witness :
  diff_step "+++ b/b.py" (mkDiff (Some 2) (Some "a.py") ∅)
  = Return (mkDiff (Some 1) (Some "a.py") ∅).
Proof.
  apply (proj1 hunk_body_counts_down "+++ b/b.py"
           (mkDiff (Some 2) (Some "a.py") ∅) 2); [reflexivity|lia].
Defined.



Lemma diff_loop_cons line lines st st' :
  diff_step line st = Return st' →
  diff_loop (line :: lines) st = diff_loop lines st'.
Proof. intros H. cbn [diff_loop]. by rewrite H. Qed.

Lemma elem_of_range x a b : x ∈ range a b ↔ a ≤ x < b.
Proof.
  unfold range. rewrite elem_of_list_to_set, elem_of_seqZ. lia.
Qed.




(** ** The result of the unified-diff parser *)

Lemma hunk_header_count_nonneg line row count :
  hunk_header line = Some (row, count) → 0 ≤ count.
Proof.
  intros Hh.
  destruct (Re.match_at DIFF_HUNK_REGEXP line 0) as [m|] eqn:Hm.
  - apply hunk_header_match in Hm as (_ & row' & count' & Hh' & _ & _ & ?).
    by simplify_eq.
  - unfold hunk_header in Hh. by rewrite Hm in Hh.
Qed.

Section diff_loop_facts.
Implicit Types (st : DiffState) (m : gmap string (gset Z)).

Lemma truthy_rows st :
  0 ≤ rows_of st → truthy (number_of_rows st) = (0 <? rows_of st).
Proof.
  unfold rows_of, truthy. destruct (number_of_rows st) as [n|]; cbn; [|done].
  intros ?. destruct (Z.eqb_spec n 0), (Z.ltb_spec 0 n); cbn; (done || lia).
Qed.

Lemma diff_loop_spec lines : ∀ st,
  0 ≤ rows_of st →
  Forall has_path (hunks_from (current_path st) (rows_of st) lines) →
  ∃ m,
    diff_loop lines st = Return m
    ∧ ∀ path,
        (is_Some (m !! path) ↔
           is_Some (parsed_paths st !! path)
           ∨ ∃ h, h ∈ hunks_from (current_path st) (rows_of st) lines
                  ∧ hunk_path h = Some path)
        ∧ ∀ x, x ∈ default ∅ (m !! path) ↔
                 x ∈ default ∅ (parsed_paths st !! path)
                 ∨ ∃ h, h ∈ hunks_from (current_path st) (rows_of st) lines
                        ∧ hunk_path h = Some path ∧ in_hunk x h.
Proof.
  induction lines as [|line lines IH]; intros st Hrows Hpaths.
  { exists (parsed_paths st). split; [done|]. intros path. cbn.
    split; (split; [by left|]); by intros [?|(h & []%elem_of_nil & _)]. }
  cbn [hunks_from] in *.
  pose proof (truthy_rows st Hrows) as Htruthy.
  destruct (0 <? rows_of st) eqn:Hbody.
  - (* inside a hunk body *)
    apply Z.ltb_lt in Hbody. unfold rows_of in Hbody, Hpaths |- *.
    destruct (number_of_rows st) as [n|] eqn:Hn; cbn in Hbody; [|lia].
    cbn [default from_option id] in *.
    destruct (IH (mkDiff (Some (if Str.prefix "-" line then n else n - 1))
                    (current_path st) (parsed_paths st)))
      as (m & Hm & Hspec).
    { unfold rows_of; cbn [number_of_rows default from_option id].
      destruct (Str.prefix "-" line); lia. }
    { done. }
    exists m. split; [|done].
    by rewrite (diff_loop_cons _ _ _ _ (diff_step_body line st n Hn
                                          ltac:(lia))).
  - (* outside *)
    assert (rows_of st = 0) as Hzero by (apply Z.ltb_ge in Hbody; lia).
    destruct (Str.prefix "+++" line) eqn:Hplus.
    { destruct (IH (mkDiff (number_of_rows st) (Some (path_of line))
                      (parsed_paths st))) as (m & Hm & Hspec); [done..|].
      exists m. split; [|done].
      by rewrite (diff_loop_cons _ _ _ _
                    (diff_step_path line st Htruthy Hplus)). }
    destruct (hunk_header line) as [[row count]|] eqn:Hh.
    + apply Forall_cons in Hpaths as [[p Hp] Hpaths]. cbn in Hp.
      pose proof (hunk_header_count_nonneg _ _ _ Hh) as Hcount.
      pose proof (diff_step_header line st row count Htruthy Hh) as Hstep.
      rewrite Hp in Hstep, Hpaths.
      destruct (IH (mkDiff (Some count) (Some p)
                      (<[p := default ∅ (parsed_paths st !! p)
                               ∪ range row (row + count)]>
                         (parsed_paths st)))) as (m & Hm & Hspec);
        [done..|].
      exists m. split; [by rewrite (diff_loop_cons _ _ _ _ Hstep)|].
      intros path. destruct (Hspec path) as [Hdom Helem].
      unfold rows_of in Hdom, Helem.
      cbn [current_path parsed_paths number_of_rows default from_option id]
        in Hdom, Helem.
      rewrite Hp. split.
      * rewrite Hdom. setoid_rewrite elem_of_cons.
        destruct (decide (p = path)) as [->|Hne].
        -- rewrite lookup_insert_eq. split.
           ++ intros [_|(h & Hin & Hh')]; [|by eauto 6].
              right. eexists. split; [by left|done].
           ++ intros _. left. by eexists.
        -- rewrite lookup_insert_ne by done. split.
           ++ intros [?|(h & Hin & Hh')]; [by left|by eauto 6].
           ++ intros [?|(h & [->|Hin] & Hh')]; [by left| |by eauto 6].
              cbn in Hh'. congruence.
      * intros x. rewrite Helem. setoid_rewrite elem_of_cons.
        destruct (decide (p = path)) as [->|Hne].
        -- rewrite lookup_insert_eq. cbn [default from_option id].
           rewrite elem_of_union, elem_of_range. split.
           ++ intros [[?|?]|(h & Hin & Hh' & Hx)];
                [by left| |by eauto 8].
              right. eexists. split; [by left|]. split; [done|].
              unfold in_hunk; cbn. lia.
           ++ intros [?|(h & [->|Hin] & Hh' & Hx)];
                [by auto| |by eauto 8].
              left. right. unfold in_hunk in Hx; cbn in Hx. lia.
        -- rewrite lookup_insert_ne by done. split.
           ++ intros [?|(h & Hin & Hh' & Hx)]; [by left|by eauto 8].
           ++ intros [?|(h & [->|Hin] & Hh' & Hx)];
                [by left| |by eauto 8].
              cbn in Hh'. congruence.
    + destruct (IH st Hrows Hpaths) as (m & Hm & Hspec).
      exists m. split; [|done].
      by rewrite (diff_loop_cons _ _ _ _
                    (diff_step_other line st Htruthy Hplus Hh)).
Qed.

End diff_loop_facts.



(** * Further properties *)

(** ** Texts of the tokens *)

Lemma lstrip_space_app a b :
  Str.all Chr.isspace a = true → Str.lstrip (a +:+ b) = Str.lstrip b.
Proof.
  induction a as [|c a IH]; [done|]. rewrite str_app_cons. cbn.
  intros [-> Ha]%andb_true_iff. by apply IH.
Qed.

Lemma rstrip_all_space s : Str.all Chr.isspace s = true → Str.rstrip s = "".
Proof.
  induction s as [|c s IH]; [done|]. cbn.
  intros [-> Hs]%andb_true_iff. by rewrite IH.
Qed.

Lemma strip_all_space s : Str.all Chr.isspace s = true → Str.strip s = "".
Proof.
  intros Hs. unfold Str.strip. apply rstrip_all_space.
  by rewrite lstrip_all_space.
Qed.

(** A character that is not whitespace, with whitespace around it. *)
Lemma strip_around c a b :
  Chr.isspace c = false →
  Str.all Chr.isspace a = true → Str.all Chr.isspace b = true →
  Str.strip (a +:+ String c b) = String c "".
Proof.
  intros Hc Ha Hb. unfold Str.strip.
  rewrite lstrip_space_app, lstrip_id by done.
  cbn. by rewrite rstrip_all_space, Hc.
Qed.

Lemma code_re_starts {A} pos s caps (k : Re.cont A) x :
  Re.run CODE_RE pos s caps k = Some x → (0 < Str.span Chr.isupper_az s)%nat.
Proof.
  unfold CODE_RE. rewrite run_cat. destruct s as [|c s]; [done|].
  rewrite run_plus. cbn. destruct (Chr.isupper_az c); [lia|done].
Qed.

Lemma code_run_shaped s :
  (0 < Str.span Chr.isupper_az s)%nat →
  code_shaped (Str.take (code_run s) s).
Proof.
  intros Hup. unfold code_run.
  exists (Str.take (Str.span Chr.isupper_az s) s),
    (Str.take (Str.span Chr.isdecimal
                 (Str.drop (Str.span Chr.isupper_az s) s))
       (Str.drop (Str.span Chr.isupper_az s) s)).
  split; [by rewrite str_take_take_drop|].
  split; [|split; by apply str_all_take_span].
  destruct s as [|c s]; cbn in *; [lia|].
  destruct (Chr.isupper_az c); [done|lia].
Qed.

Lemma table_entry r name :
  (r, name) ∈ _FILE_LIST_TOKEN_TYPES →
  match name with
  | _CODE => r = CODE_RE
  | _FILE => r = Plus Chr.not_space_colon_comma
  | _COLON => r = Star Chr.isspace ⨾ Lit ":" ⨾ Star Chr.isspace
  | _COMMA => r = Star Chr.isspace ⨾ Lit "," ⨾ Star Chr.isspace
  | _WS => r = Plus Chr.isspace
  | _EOF => False
  end.
Proof.
  unfold _FILE_LIST_TOKEN_TYPES. rewrite !elem_of_cons, elem_of_nil.
  by intros [[= -> ->]|[[= -> ->]|[[= -> ->]|[[= -> ->]|[[= -> ->]|[]]]]]].
Qed.

(** The token made of a match of the table has the text of its type. *)
Lemma matched_token_text value sp :
  matched value sp → token_text_ok (token_of value sp).
Proof.
  destruct sp as [[a b] name]. intros (_ & m & Hm & Hend); cbn [fst snd] in *.
  apply first_match_inv in Hm as (r & Hr%table_entry & Hm).
  unfold token_text_ok, token_of; cbn [tp src fst snd].
  unfold Re.match_at in Hm. set (s := Str.drop a value) in *.
  destruct name; try subst r.
  - pose proof (code_re_starts _ _ _ _ _ Hm) as Hup.
    apply code_re_sound in Hm as [_ [= <-]]. cbn in Hend. subst b.
    rewrite slice_drop. fold s. rewrite strip_id; [by apply code_run_shaped|].
    eapply str_all_impl; [|apply code_run_all].
    intros c [Hc|Hc]%orb_true_iff.
    + by apply upper_class in Hc as (_ & -> & _).
    + by apply decimal_class in Hc as (-> & _).
  - destruct s as [|c s'] eqn:Hs; [done|]. rewrite run_plus in Hm.
    destruct (Chr.not_space_colon_comma c) eqn:Hc; [|done].
    apply star_sound in Hm as (n & Hn & [= <-]). cbn in Hend. subst b.
    replace (S (a + n))%nat with (a + S n)%nat by lia.
    rewrite slice_drop. fold s. rewrite Hs.
    assert (Str.all Chr.not_space_colon_comma (Str.take (S n) (String c s'))
            = true) as Hall.
    { apply str_all_take_span. cbn. rewrite Hc. lia. }
    rewrite strip_id; [by split|].
    eapply str_all_impl; [|exact Hall].
    intros c'. unfold Chr.not_space_colon_comma. by destruct (Chr.isspace c').
  - apply run_sound in Hm as (n & caps & Hm & [= <-]). cbn in Hend. subst b.
    rewrite slice_drop. fold s. inv_matches Hm.
    rewrite <-str_take_take_drop, Hs. cbn [Str.take Nat.add].
    apply strip_around; [done|by apply str_all_take_span..].
  - apply run_sound in Hm as (n & caps & Hm & [= <-]). cbn in Hend. subst b.
    rewrite slice_drop. fold s. inv_matches Hm.
    rewrite <-str_take_take_drop, Hs. cbn [Str.take Nat.add].
    apply strip_around; [done|by apply str_all_take_span..].
  - apply run_sound in Hm as (n & caps & Hm & [= <-]). cbn in Hend. subst b.
    rewrite slice_drop. fold s. inv_matches Hm.
    apply strip_all_space. apply str_all_take_span. lia.
  - done.
Qed.

Lemma tokenize_token_text value tokens :
  _tokenize_files_to_codes_mapping value = Return tokens →
  Forall token_text_ok tokens.
Proof.
  destruct (tokenize_spans value) as (spans & -> & _ & Hall).
  intros [= <-]. apply Forall_app. split; [|by repeat constructor].
  apply Forall_fmap. eapply Forall_impl; [exact Hall|].
  intros sp Hsp. by apply matched_token_text.
Qed.

(** X1. Whatever the input, the texts of the tokens are these: a code
    token is capital letters followed by digits, a file token is a
    non-empty text with no whitespace, colon or comma, a colon token is
    ":" and a comma token "," (the whitespace around them is stripped),
    and a whitespace token and the end token are empty. *)
Theorem token_texts (value : string) :
  ∃ tokens,
    _tokenize_files_to_codes_mapping value = Return tokens
    ∧ Forall token_text_ok tokens.
Proof.
  destruct (tokenize_spans value) as (spans & Htok & _).
  eexists. split; [exact Htok|]. by eapply tokenize_token_text.
Qed.

(** ** What the mapping parser returns *)

Lemma parse_step_ok value token st ret st' ret' :
  token_text_ok token → state_ok st ret →
  parse_step value token st ret = Return (st', ret') →
  state_ok st' ret'.
Proof.
  unfold token_text_ok. destruct token as [ty x], st as [b c F C].
  intros Htok (HF & HC & Hret). unfold parse_step, _reset; cbn in *.
  assert (Forall pair_ok
            (match C with
             | [] => ret
             | _ => ret ++ ((λ filename, (filename, C)) <$> F)
             end)) as Hflush.
  { destruct C as [|cd C]; [done|]. apply Forall_app. split; [done|].
    apply Forall_fmap. eapply Forall_impl; [exact HF|].
    intros f Hf. by split. }
  repeat case_bool_decide; destruct b, c; cbn; intros [= <- <-];
    subst; repeat split; cbn; auto using Forall_app_2, Forall_nil_2;
    try (apply Forall_app; split; [done|by repeat constructor]);
    by repeat constructor.
Qed.

Lemma parse_loop_ok value tokens : ∀ st ret ret',
  Forall token_text_ok tokens → state_ok st ret →
  parse_loop value tokens st ret = Return ret' → Forall pair_ok ret'.
Proof.
  induction tokens as [|token tokens IH]; intros st ret ret' Htoks Hst; cbn.
  - intros [= <-]. by destruct Hst as (_ & _ & ?).
  - apply Forall_cons in Htoks as [Htok Htoks].
    destruct (parse_step value token st ret) as [[st1 ret1]|e|] eqn:Hstep;
      cbn; [|done..].
    eapply IH; [done|]. by eapply parse_step_ok.
Qed.

(** X2. Every pair the parser returns has a filename that is not empty and
    has no whitespace, colon or comma in it, and a list of codes that is
    not empty, every code being capital letters followed by digits. *)
Theorem parsed_pairs_shape :
  ∀ (value_ : list string + string) (ret : mapping),
    parse_files_to_codes_mapping value_ = Return ret →
    Forall pair_ok ret.
Proof.
  intros value_ ret. unfold parse_files_to_codes_mapping.
  fold (mapping_text value_).
  destruct (Str.strip (mapping_text value_)); [by intros [= <-]|].
  destruct (_tokenize_files_to_codes_mapping (mapping_text value_))
    as [tokens|e|] eqn:Htok; cbn; [|done..].
  apply parse_loop_ok; [by eapply tokenize_token_text|].
  by repeat split.
Qed.

Lemma parsed_pairs_shape_witness :
  parse_files_to_codes_mapping (inr "a.py,b/*.py : E501 W1, F")
    = Return [("a.py", ["E501"; "W1"; "F"]); ("b/*.py", ["E501"; "W1"; "F"])]
  ∧ Forall pair_ok
      [("a.py", ["E501"; "W1"; "F"]); ("b/*.py", ["E501"; "W1"; "F"])].
Proof.
  assert (parse_files_to_codes_mapping (inr "a.py,b/*.py : E501 W1, F")
    = Return [("a.py", ["E501"; "W1"; "F"]); ("b/*.py", ["E501"; "W1"; "F"])])
    as H by (by vm_compute).
  split; [exact H|]. exact (parsed_pairs_shape _ _ H).
Defined.

(** X3. A mapping that is empty or made of whitespace only is no error: the
    parser returns the empty list, for a string and for a sequence of
    strings. *)
Theorem blank_mapping_is_empty :
  ∀ value_ : list string + string,
    Str.all Chr.isspace (mapping_text value_) = true →
    parse_files_to_codes_mapping value_ = Return [].
Proof.
  intros value_ Hblank. unfold parse_files_to_codes_mapping.
  fold (mapping_text value_). by rewrite strip_all_space.
Qed.

Lemma blank_mapping_is_empty_witness :
  parse_files_to_codes_mapping (inl [" "; ""; "  "]) = Return [].
Proof. apply blank_mapping_is_empty. by vm_compute. Defined.

(** ** Mappings with no colon *)

Lemma colon_token_has_colon value sp :
  matched value sp → sp.2 = _COLON → ¬ no_colon value.
Proof.
  destruct sp as [[a b] name]. intros (_ & m & Hm & _) Hname Hno.
  cbn [fst snd] in *. subst name.
  apply first_match_inv in Hm as (r & Hr%table_entry & Hm). subst r.
  unfold Re.match_at in Hm.
  apply run_sound in Hm as (n & caps & Hm & _). inv_matches Hm.
  apply (str_all_drop _ _ a), (str_all_drop _ _ x) in Hno.
  by rewrite Hs in Hno.
Qed.

Lemma parse_loop_no_colon value tokens eof : ∀ st ret,
  Forall (λ t, tp t ≠ _COLON) tokens → tp eof = _EOF →
  seen_colon st = false →
  parse_loop value (tokens ++ [eof]) st ret = Raise (_unexpected_token value).
Proof.
  induction tokens as [|[ty x] tokens IH]; intros [b c F C] ret Htoks Heof Hc;
    cbn in Hc; subst c.
  - destruct eof as [ty x]; cbn in Heof; subst ty. by destruct b.
  - apply Forall_cons in Htoks as [Hty Htoks]. cbn in Hty.
    cbn [app parse_loop].
    destruct ty, b; try done; cbn; by apply IH.
Qed.

(** X4. A mapping that is not blank and has no colon in it is always
    rejected with the configuration-format error: the end of the input, if
    nothing before it, is met while filenames are collected. *)
Theorem mapping_without_colon_is_rejected :
  ∀ value_ : list string + string,
    Str.strip (mapping_text value_) ≠ "" →
    no_colon (mapping_text value_) →
    parse_files_to_codes_mapping value_
      = Raise (_unexpected_token (mapping_text value_)).
Proof.
  intros value_ Hne Hno. unfold parse_files_to_codes_mapping.
  fold (mapping_text value_).
  destruct (Str.strip (mapping_text value_)); [done|].
  destruct (tokenize_spans (mapping_text value_)) as (spans & -> & _ & Hall).
  cbn [mbind outcome_bind]. apply parse_loop_no_colon; [|done..].
  apply Forall_fmap. eapply Forall_impl; [exact Hall|].
  intros sp Hsp Hcolon. by eapply colon_token_has_colon.
Qed.

Lemma mapping_without_colon_is_rejected_witness :
  parse_files_to_codes_mapping (inr "f.py g.py,E123")
    = Raise (_unexpected_token "f.py g.py,E123").
Proof.
  apply (mapping_without_colon_is_rejected (inr "f.py g.py,E123"));
    by vm_compute.
Defined.

(** ** Outcomes of the unified-diff parser *)

(** Once a path is set, every hunk has one. *)
Lemma hunks_from_some lines : ∀ p rows,
  Forall has_path (hunks_from (Some p) rows lines).
Proof.
  induction lines as [|line lines IH]; intros p rows; cbn [hunks_from];
    [done|].
  repeat case_match; try apply IH.
  constructor; [by eexists|apply IH].
Qed.

(** A hunk with no path makes the parser fail its assertion. *)
Lemma diff_loop_fail lines : ∀ st,
  0 ≤ rows_of st →
  ¬ Forall has_path (hunks_from (current_path st) (rows_of st) lines) →
  diff_loop lines st = Raise AssertionError.
Proof.
  induction lines as [|line lines IH]; intros st Hrows Hpaths.
  { by destruct Hpaths. }
  cbn [hunks_from] in Hpaths.
  pose proof (truthy_rows st Hrows) as Htruthy.
  destruct (0 <? rows_of st) eqn:Hbody.
  - apply Z.ltb_lt in Hbody. unfold rows_of in Hbody, Hpaths.
    destruct (number_of_rows st) as [n|] eqn:Hn; cbn in Hbody; [|lia].
    cbn [default from_option id] in *.
    rewrite (diff_loop_cons _ _ _ _
               (diff_step_body line st n Hn ltac:(lia))).
    apply IH; [|done].
    unfold rows_of; cbn [number_of_rows default from_option id].
    destruct (Str.prefix "-" line); lia.
  - destruct (Str.prefix "+++" line) eqn:Hplus.
    { by destruct Hpaths; apply hunks_from_some. }
    destruct (hunk_header line) as [[row count]|] eqn:Hh.
    + rewrite Forall_cons in Hpaths.
      pose proof (hunk_header_count_nonneg _ _ _ Hh) as Hcount.
      pose proof (diff_step_header line st row count Htruthy Hh) as Hstep.
      destruct (current_path st) as [p|] eqn:Hp.
      * destruct Hpaths. split; [by eexists|apply hunks_from_some].
      * cbn [diff_loop]. by rewrite Hstep.
    + rewrite (diff_loop_cons _ _ _ _
                 (diff_step_other line st Htruthy Hplus Hh)).
      by apply IH.
Qed.




(** ** Where the keys and the line numbers come from *)

(** What a returned map holds, by the hunks of the diff. *)
Lemma parse_unified_diff_spec diff m :
  parse_unified_diff diff = Return m →
  ∀ path,
    (is_Some (m !! path) ↔ ∃ h, h ∈ hunks diff ∧ hunk_path h = Some path)
    ∧ ∀ x, x ∈ default ∅ (m !! path) ↔
             ∃ h, h ∈ hunks diff ∧ hunk_path h = Some path ∧ in_hunk x h.
Proof.
  unfold parse_unified_diff, hunks. intros Hm.
  destruct (decide (Forall has_path
              (hunks_from None 0 (Str.splitlines false diff)))) as [Hp|Hp].
  - destruct (diff_loop_spec (Str.splitlines false diff) DiffState0)
      as (m' & Hm' & Hspec); [done..|].
    rewrite Hm in Hm'. injection Hm' as <-.
    intros path. destruct (Hspec path) as [Hdom Helem]. split.
    + rewrite Hdom. cbn. rewrite lookup_empty. split; [|by right].
      by intros [[? [=]]|?].
    + intros x. rewrite Helem. cbn. rewrite lookup_empty. split; [|by right].
      by intros [[]%elem_of_empty|?].
  - rewrite (diff_loop_fail _ DiffState0) in Hm; done.
Qed.

Lemma hunks_from_origin lines : ∀ path rows h,
  h ∈ hunks_from path rows lines →
  (hunk_path h = path
   ∨ ∃ line, line ∈ lines ∧ Str.prefix "+++" line = true
             ∧ hunk_path h = Some (path_of line))
  ∧ ∃ line, line ∈ lines
            ∧ hunk_header line = Some (new_start h, new_count h).
Proof.
  induction lines as [|line lines IH]; intros path rows h; cbn [hunks_from].
  { by intros ?%elem_of_nil. }
  assert (∀ path' rows',
    h ∈ hunks_from path' rows' lines →
    (path' = path ∨ (Str.prefix "+++" line = true
                     ∧ path' = Some (path_of line))) →
    (hunk_path h = path
     ∨ ∃ line0, line0 ∈ line :: lines ∧ Str.prefix "+++" line0 = true
                ∧ hunk_path h = Some (path_of line0))
    ∧ ∃ line0, line0 ∈ line :: lines
               ∧ hunk_header line0 = Some (new_start h, new_count h))
    as Hrest.
  { intros path' rows' Hin Hpath'.
    destruct (IH _ _ _ Hin) as [Horigin (line0 & Hin0 & Hh0)]. split.
    - destruct Horigin as [Hp|(line1 & Hin1 & Hplus1 & Hp1)].
      + destruct Hpath' as [->|[Hplus ->]]; [by left|].
        right. exists line. split; [by left|done].
      + right. exists line1. split; [by right|done].
    - exists line0. split; [by right|done]. }
  destruct (0 <? rows); [by intros ?%Hrest; auto|].
  destruct (Str.prefix "+++" line) eqn:Hplus; [by intros ?%Hrest; auto|].
  destruct (hunk_header line) as [[start count]|] eqn:Hh;
    [|by intros ?%Hrest; auto].
  intros [->|Hin]%elem_of_cons; [|by eapply Hrest; eauto].
  cbn. split; [by left|]. exists line. split; [by left|done].
Qed.

Lemma before_no_sep sep s :
  Str.all (λ c, negb (Chr.eqc sep c)) (Str.before sep s) = true.
Proof.
  induction s as [|c s IH]; [done|]. cbn.
  destruct (Chr.eqc sep c) eqn:Hc; [done|]. cbn. by rewrite Hc.
Qed.

Lemma path_of_no_tab line : no_tab (path_of line).
Proof.
  unfold no_tab, path_of. case_match.
  - apply str_all_drop, before_no_sep.
  - apply before_no_sep.
Qed.

(** X6. Every key of the map the parser returns is the path of a "+++"
    line of the diff: the text after the 4th character of that line, cut
    at its first tab, without a leading "b/". So no key has a tab in it. *)
Theorem diff_keys_come_from_path_lines :
  ∀ (diff : string) (m : gmap string (gset Z)) (path : string),
    parse_unified_diff diff = Return m → is_Some (m !! path) →
    no_tab path
    ∧ ∃ line, line ∈ Str.splitlines false diff
              ∧ Str.prefix "+++" line = true ∧ path = path_of line.
Proof.
  intros diff m path Hm Hkey.
  destruct (parse_unified_diff_spec _ _ Hm path) as [Hdom _].
  apply Hdom in Hkey as (h & Hin & Hpath). unfold hunks in Hin.
  apply hunks_from_origin in Hin as [[Hnone|(line & Hin & Hplus & Hp)] _].
  { congruence. }
  assert (path = path_of line) as -> by congruence.
  split; [apply path_of_no_tab|by exists line].
Qed.

Lemma diff_keys_come_from_path_lines_witness :
  parse_unified_diff two_hunks_diff = Return {[ "foo.py" := {[1; 7; 8]} ]}
  ∧ no_tab "foo.py"
  ∧ ∃ line, line ∈ Str.splitlines false two_hunks_diff
            ∧ Str.prefix "+++" line = true ∧ "foo.py" = path_of line.
Proof.
  assert (parse_unified_diff two_hunks_diff
          = Return {[ "foo.py" := {[1; 7; 8]} ]}) as H by (by vm_compute).
  split; [exact H|].
  apply (diff_keys_come_from_path_lines _ _ "foo.py" H).
  rewrite lookup_singleton_eq. by eexists.
Defined.

Lemma hunk_header_start_nonneg line row count :
  hunk_header line = Some (row, count) → 0 ≤ row.
Proof.
  intros Hh.
  destruct (Re.match_at DIFF_HUNK_REGEXP line 0) as [m|] eqn:Hm.
  - apply hunk_header_match in Hm as (_ & row' & count' & Hh' & _ & ? & _).
    by simplify_eq.
  - unfold hunk_header in Hh. by rewrite Hm in Hh.
Qed.

(** X7. Every line number the parser records for a path lies in the
    new-file range of a hunk header of the diff, from its new-start up to,
    not including, new-start plus new-count; no recorded line number is
    negative. *)
Theorem diff_lines_come_from_headers :
  ∀ (diff : string) (m : gmap string (gset Z)) (path : string) (x : Z),
    parse_unified_diff diff = Return m → x ∈ default ∅ (m !! path) →
    0 ≤ x
    ∧ ∃ line start count,
        line ∈ Str.splitlines false diff
        ∧ hunk_header line = Some (start, count)
        ∧ start ≤ x < start + count.
Proof.
  intros diff m path x Hm Hx.
  destruct (parse_unified_diff_spec _ _ Hm path) as [_ Helem].
  apply Helem in Hx as (h & Hin & _ & Hx). unfold hunks in Hin.
  apply hunks_from_origin in Hin as [_ (line & Hin & Hh)].
  unfold in_hunk in Hx. split.
  - apply hunk_header_start_nonneg in Hh. lia.
  - by exists line, (new_start h), (new_count h).
Qed.

Lemma diff_lines_come_from_headers_witness :
  parse_unified_diff two_hunks_diff = Return {[ "foo.py" := {[1; 7; 8]} ]}
  ∧ 0 ≤ 8
  ∧ ∃ line start count,
      line ∈ Str.splitlines false two_hunks_diff
      ∧ hunk_header line = Some (start, count)
      ∧ start ≤ 8 < start + count.
Proof.
  assert (parse_unified_diff two_hunks_diff
          = Return {[ "foo.py" := {[1; 7; 8]} ]}) as H by (by vm_compute).
  split; [exact H|].
  apply (diff_lines_come_from_headers _ _ "foo.py" 8 H).
  rewrite lookup_singleton_eq. cbn. set_solver.
Defined.

Lemma hunks_from_no_header lines : ∀ path,
  Forall (λ line, hunk_header line = None) lines →
  hunks_from path 0 lines = [].
Proof.
  induction lines as [|line lines IH]; intros path Hlines; [done|].
  apply Forall_cons in Hlines as [Hline Hlines].
  cbn [hunks_from Z.ltb Z.compare]. rewrite Hline.
  destruct (Str.prefix "+++" line); by apply IH.
Qed.

(** X8. A diff in which no line matches the hunk-header pattern gives the
    empty map, whatever "+++" lines it has; so does the empty diff. *)
Theorem diff_without_hunks_is_empty :
  ∀ diff : string,
    Forall (λ line, Re.match_at DIFF_HUNK_REGEXP line 0 = None)
      (Str.splitlines false diff) →
    parse_unified_diff diff = Return ∅.
Proof.
  intros diff Hlines.
  assert (hunks diff = []) as Hnil.
  { apply hunks_from_no_header. eapply Forall_impl; [exact Hlines|].
    intros line Hline. unfold hunk_header. by rewrite Hline. }
  destruct (diff_loop_spec (Str.splitlines false diff) DiffState0)
    as (m & Hm & Hspec); [done| |].
  { change (Forall has_path (hunks diff)). by rewrite Hnil. }
  unfold parse_unified_diff. rewrite Hm. f_equal. apply map_eq. intros path.
  rewrite lookup_empty. apply eq_None_not_Some.
  destruct (Hspec path) as [Hdom _]. rewrite Hdom.
  change (hunks_from (current_path DiffState0) (rows_of DiffState0)
            (Str.splitlines false diff)) with (hunks diff).
  rewrite Hnil. cbn. rewrite lookup_empty.
  by intros [[? [=]]|(h & []%elem_of_nil & _)].
Qed.

Lemma diff_without_hunks_is_empty_witness :
  parse_unified_diff
    ("--- a/x.py" +:+ Str.LF +:+ "+++ b/x.py" +:+ Str.LF +:+ "@@ -1 +1")
  = Return ∅.
Proof.
  apply diff_without_hunks_is_empty. vm_compute. by repeat constructor.
Defined.

(** ** Splitting and substituting *)

Section find_facts.
Implicit Types (p : ascii → bool) (s : string).

Lemma find_char_lt p s n :
  find_char p s = Some n → (n < String.length s)%nat.
Proof.
  revert n; induction s as [|c s IH]; intros n; cbn; [done|].
  destruct (p c); [intros [= <-]; lia|].
  destruct (find_char p s) as [k|]; cbn; [|done].
  intros [= <-]. specialize (IH k eq_refl). lia.
Qed.

Lemma find_char_None p s :
  find_char p s = None → Str.all (λ c, negb (p c)) s = true.
Proof.
  induction s as [|c s IH]; cbn; [done|].
  destruct (p c); [done|]. destruct (find_char p s); [done|]. auto.
Qed.

(** A search for one character of a class finds the first one. *)
Lemma search_cls p s : ∀ must_advance i,
  search_from (Cls p) must_advance i s
  = (λ n, {| Re.m_start := i + n; Re.m_end := S (i + n); Re.m_groups := [] |})
      <$> find_char p s.
Proof.
  induction s as [|c s IH]; intros ma i; cbn [search_from Re.run find_char];
    [done|].
  destruct (p c).
  - rewrite bool_decide_eq_false_2 by lia. rewrite andb_false_r. cbn.
    by rewrite Nat.add_0_r.
  - rewrite IH. destruct (find_char p s) as [n|]; cbn; [|done].
    do 2 f_equal; lia.
Qed.

(** A search for a run of a class finds the first one, whole. *)
Lemma search_plus p s : ∀ must_advance i,
  search_from (Plus p) must_advance i s
  = (λ n, {| Re.m_start := i + n;
             Re.m_end := i + n + Str.span p (Str.drop n s);
             Re.m_groups := [] |}) <$> find_char p s.
Proof.
  induction s as [|c s IH]; intros ma i; cbn [search_from find_char]; [done|].
  rewrite run_plus. destruct (p c) eqn:Hc.
  - erewrite star_first.
    2:{ rewrite bool_decide_eq_false_2 by lia. by rewrite andb_false_r. }
    cbn. rewrite Hc. do 2 f_equal; lia.
  - rewrite IH. destruct (find_char p s) as [n|]; cbn; [|done].
    do 2 f_equal; lia.
Qed.

Lemma split_on_find p s :
  split_on p s
  = match find_char p s with
    | None => [s]
    | Some n => Str.take n s :: split_on p (Str.drop (S n) s)
    end.
Proof.
  induction s as [|c s IH]; cbn; [done|].
  destruct (p c); [done|]. rewrite IH.
  by destruct (find_char p s).
Qed.

Lemma sub_runs_true p repl s :
  sub_runs p repl true s = sub_runs p repl false (Str.drop (Str.span p s) s).
Proof.
  induction s as [|c s IH]; cbn; [done|].
  destruct (p c) eqn:Hc; cbn; [by rewrite IH|by rewrite Hc].
Qed.

Lemma sub_runs_find p repl s :
  sub_runs p repl false s
  = match find_char p s with
    | None => s
    | Some n =>
        Str.take n s +:+ repl
        +:+ sub_runs p repl false (Str.drop (n + Str.span p (Str.drop n s)) s)
    end.
Proof.
  induction s as [|c s IH]; cbn; [done|].
  destruct (p c) eqn:Hc; cbn.
  - by rewrite Hc, sub_runs_true.
  - rewrite IH. destruct (find_char p s) as [n|]; cbn; [|done].
    by rewrite str_app_cons.
Qed.

End find_facts.

Lemma find_matches_S fuel r value start must_advance :
  find_matches (S fuel) r value start must_advance
  = match search r value start must_advance with
    | None => Return []
    | Some m =>
        ms ← find_matches fuel r value (Re.m_end m)
               (bool_decide (Re.m_end m = Re.m_start m));
        Return (m :: ms)
    end.
Proof. reflexivity. Qed.

Lemma split_cls_from p value fuel : ∀ start must_advance,
  (String.length value - start < fuel)%nat →
  ∃ ms,
    find_matches fuel (Cls p) value start must_advance = Return ms
    ∧ split_pieces value start ms = split_on p (Str.drop start value).
Proof.
  induction fuel as [|fuel IH]; intros start ma Hfuel; [lia|].
  rewrite find_matches_S. unfold search. rewrite search_cls, split_on_find.
  destruct (find_char p (Str.drop start value)) as [n|] eqn:Hfind;
    cbn [fmap option_fmap option_map Re.m_start Re.m_end].
  - apply find_char_lt in Hfind. rewrite str_drop_length in Hfind.
    destruct (IH (S (start + n)) (bool_decide (S (start + n) = start + n)%nat))
      as (ms & -> & Hms); [lia|].
    eexists. split; [done|]. cbn [split_pieces Re.m_start Re.m_end].
    rewrite Hms, slice_drop, str_drop_drop. do 3 f_equal. lia.
  - by eexists.
Qed.

(** Splitting at the characters of a class. *)
Lemma re_split_cls p value :
  re_split (Cls p) value = Return (split_on p value).
Proof.
  unfold re_split, match_fuel.
  destruct (split_cls_from p value (2 * String.length value + 3) 0 false)
    as (ms & -> & Hms); [lia|].
  cbn. by rewrite Hms.
Qed.

Lemma sub_plus_from p repl value fuel : ∀ start must_advance,
  (String.length value - start < fuel)%nat →
  ∃ ms,
    find_matches fuel (Plus p) value start must_advance = Return ms
    ∧ sub_pieces repl value start ms
      = sub_runs p repl false (Str.drop start value).
Proof.
  induction fuel as [|fuel IH]; intros start ma Hfuel; [lia|].
  rewrite find_matches_S. unfold search.
  rewrite search_plus, (sub_runs_find p repl).
  destruct (find_char p (Str.drop start value)) as [n|] eqn:Hfind;
    cbn [fmap option_fmap option_map Re.m_start Re.m_end].
  - set (k := Str.span p (Str.drop n (Str.drop start value))).
    assert (0 < k)%nat as Hk.
    { subst k. clear -Hfind. revert n Hfind.
      induction (Str.drop start value) as [|c s IHs]; intros n; cbn; [done|].
      destruct (p c) eqn:Hc; [intros [= <-]; cbn; rewrite Hc; lia|].
      destruct (find_char p s) as [j|]; cbn; [|done].
      intros [= <-]. by apply IHs. }
    pose proof (find_char_lt _ _ _ Hfind) as Hlt.
    rewrite str_drop_length in Hlt.
    destruct (IH (start + n + k)%nat
                (bool_decide (start + n + k = start + n)%nat))
      as (ms & -> & Hms); [lia|].
    eexists. split; [done|]. cbn [sub_pieces Re.m_start Re.m_end].
    rewrite Hms, slice_drop, str_drop_drop. do 4 f_equal. lia.
  - by eexists.
Qed.

(** Substituting the runs of a class. *)
Lemma re_sub_plus p repl value :
  re_sub (Plus p) repl value = Return (sub_runs p repl false value).
Proof.
  unfold re_sub, match_fuel.
  destruct (sub_plus_from p repl value (2 * String.length value + 3) 0 false)
    as (ms & -> & Hms); [lia|].
  cbn. by rewrite Hms.
Qed.

(** ** Comma-separated lists *)

Lemma str_app_nil_l s : "" +:+ s = s.
Proof. reflexivity. Qed.

Section strip_facts.
Implicit Types (q : ascii → bool) (s : string).

Lemma all_lstrip q s :
  Str.all q s = true → Str.all q (Str.lstrip s) = true.
Proof.
  induction s as [|c s IH]; cbn; [done|].
  intros [Hc Hs]%andb_true_iff.
  destruct (Chr.isspace c); [by apply IH|]. cbn. by rewrite Hc.
Qed.

Lemma all_rstrip q s :
  Str.all q s = true → Str.all q (Str.rstrip s) = true.
Proof.
  induction s as [|c s IH]; cbn; [done|].
  intros [Hc Hs]%andb_true_iff. specialize (IH Hs).
  destruct (Str.rstrip s) as [|c' r].
  - destruct (Chr.isspace c); cbn; [done|by rewrite Hc].
  - cbn in *. by rewrite Hc.
Qed.

Lemma all_strip q s : Str.all q s = true → Str.all q (Str.strip s) = true.
Proof. intros Hs. by apply all_rstrip, all_lstrip. Qed.

Lemma rstrip_idem s : Str.rstrip (Str.rstrip s) = Str.rstrip s.
Proof.
  induction s as [|c s IH]; cbn; [done|].
  destruct (Str.rstrip s) as [|c' r] eqn:Hr.
  - destruct (Chr.isspace c) eqn:Hc; cbn; [done|by rewrite Hc].
  - cbn [Str.rstrip]. cbn [Str.rstrip] in IH. by rewrite IH.
Qed.

Lemma lstrip_head s :
  Str.lstrip s = "" ∨ ∃ c t, Str.lstrip s = String c t ∧ Chr.isspace c = false.
Proof.
  induction s as [|c s IH]; cbn; [by left|].
  destruct (Chr.isspace c) eqn:Hc; [done|]. right. by exists c, s.
Qed.

Lemma rstrip_head c t :
  Chr.isspace c = false → ∃ r, Str.rstrip (String c t) = String c r.
Proof.
  intros Hc. cbn. destruct (Str.rstrip t); rewrite ?Hc; by eexists.
Qed.

Lemma strip_idem s : Str.strip (Str.strip s) = Str.strip s.
Proof.
  unfold Str.strip at 2 3.
  destruct (lstrip_head s) as [->|(c & t & -> & Hc)]; [done|].
  destruct (rstrip_head c t Hc) as [r Hr].
  unfold Str.strip. rewrite Hr, lstrip_id by done.
  by rewrite <-Hr, rstrip_idem.
Qed.

End strip_facts.

Section split_on_facts.
Context (p : ascii → bool).
Implicit Types (s : string).

Lemma split_on_nonempty s : split_on p s ≠ [].
Proof.
  destruct s as [|c s]; cbn; [done|].
  destruct (p c); [done|]. by destruct (split_on p s).
Qed.

Lemma split_on_all q s :
  Str.all q s = true → Forall (λ x, Str.all q x = true) (split_on p s).
Proof.
  induction s as [|c s IH]; cbn; [by repeat constructor|].
  intros [Hc Hs]%andb_true_iff. specialize (IH Hs).
  destruct (p c); [by constructor|].
  destruct (split_on p s) as [|x xs]; [by repeat constructor; cbn; rewrite Hc|].
  apply Forall_cons in IH as [Hx Hxs]. constructor; [|done].
  cbn. by rewrite Hc.
Qed.

Lemma split_on_no_sep s :
  Forall (λ x, Str.all (λ c, negb (p c)) x = true) (split_on p s).
Proof.
  induction s as [|c s IH]; cbn; [by repeat constructor|].
  destruct (p c) eqn:Hc; [by constructor|].
  destruct (split_on p s) as [|x xs]; [by repeat constructor; cbn; rewrite Hc|].
  apply Forall_cons in IH as [Hx Hxs]. constructor; [|done].
  cbn. by rewrite Hc.
Qed.

Lemma split_on_intact s :
  Str.all (λ c, negb (p c)) s = true → split_on p s = [s].
Proof.
  induction s as [|c s IH]; cbn; [done|].
  intros [Hc Hs]%andb_true_iff. destruct (p c); [done|]. by rewrite IH.
Qed.

Lemma split_on_app a sepc b :
  p sepc = true →
  split_on p (a +:+ String sepc b) = split_on p a ++ split_on p b.
Proof.
  intros Hsep. induction a as [|c a IH].
  - rewrite str_app_nil_l. cbn. by rewrite Hsep.
  - rewrite str_app_cons. cbn. destruct (p c); [by rewrite IH|].
    rewrite IH. pose proof (split_on_nonempty a).
    by destruct (split_on p a).
Qed.

Lemma split_on_join sepc items :
  p sepc = true → items ≠ [] →
  Forall (λ x, Str.all (λ c, negb (p c)) x = true) items →
  split_on p (Str.join (String sepc "") items) = items.
Proof.
  intros Hsep Hne Hitems.
  induction Hitems as [|x items Hx Hitems IH]; [done|].
  destruct items as [|y items].
  - by apply split_on_intact.
  - change (Str.join (String sepc "") (x :: y :: items))
      with (x +:+ String sepc (Str.join (String sepc "") (y :: items))).
    rewrite split_on_app by done.
    rewrite split_on_intact, IH by done. done.
Qed.

End split_on_facts.

Lemma parse_comma_separated_list_cls p value :
  parse_comma_separated_list value (Cls p)
  = Return (filter (λ item, item ≠ "") (Str.strip <$> split_on p value)).
Proof. unfold parse_comma_separated_list. by rewrite re_split_cls. Qed.

(** X9. With a pattern that is one character class, as the two patterns of
    the module are, [parse_comma_separated_list] returns items none of
    which is empty, starts or ends with whitespace, or has a character of
    the class in it. With the default pattern the items have no comma and
    no whitespace at all. *)
Theorem comma_separated_items :
  (∀ (p : ascii → bool) (value : string),
     ∃ items,
       parse_comma_separated_list value (Cls p) = Return items
       ∧ Forall (item_ok p) items)
  ∧ ∀ value : string,
      ∃ items,
        parse_comma_separated_list value COMMA_SEPARATED_LIST_RE
          = Return items
        ∧ Forall (λ x, x ≠ ""
                       ∧ Str.all (λ c, negb (Chr.eqc "," c)
                                       && negb (Chr.isspace c)) x = true)
            items.
Proof.
  assert (∀ (p : ascii → bool) (value : string),
    Forall (item_ok p)
      (filter (λ item, item ≠ "") (Str.strip <$> split_on p value))) as Hok.
  { intros p value. apply Forall_forall. intros x.
    rewrite list_elem_of_filter, list_elem_of_fmap.
    intros [Hne (y & -> & Hy)]. split; [done|]. split; [apply strip_idem|].
    apply all_strip.
    pose proof (split_on_no_sep p value) as Hall.
    rewrite Forall_forall in Hall. by apply Hall. }
  split.
  - intros p value. eexists. split; [apply parse_comma_separated_list_cls|].
    apply Hok.
  - intros value. eexists.
    split; [apply parse_comma_separated_list_cls|].
    eapply Forall_impl; [apply Hok|].
    intros x (Hne & _ & Hall). split; [done|].
    eapply str_all_impl; [|exact Hall]. intros c. cbn.
    by destruct (Chr.eqc "," c), (Chr.isspace c).
Qed.

(** X10. Joining items with a separator and parsing the text gives the
    items back, in order, when no item is empty, starts or ends with
    whitespace or has a character of the class in it; the separator is any
    character of the class, the comma for instance. *)
Theorem comma_separated_round_trip :
  ∀ (p : ascii → bool) (sepc : ascii) (items : list string),
    p sepc = true → Forall (item_ok p) items →
    parse_comma_separated_list (Str.join (String sepc "") items) (Cls p)
      = Return items.
Proof.
  intros p sepc items Hsep Hitems. rewrite parse_comma_separated_list_cls.
  f_equal. destruct items as [|x items]; [done|].
  rewrite split_on_join; [|done..|].
  2:{ eapply Forall_impl; [exact Hitems|]. by intros y (_ & _ & ?). }
  induction Hitems as [|y ys (Hne & Hstrip & _) _ IH]; [done|].
  cbn [fmap list_fmap]. rewrite Hstrip, filter_cons_True by done.
  f_equal. apply IH.
Qed.

Lemma comma_separated_round_trip_witness :
  parse_comma_separated_list (Str.join "," ["E501"; "W6"; "my plugin"])
    LOCAL_PLUGIN_LIST_RE
  = Return ["E501"; "W6"; "my plugin"].
Proof.
  apply (comma_separated_round_trip
           (λ c, Chr.eqc "," c || Chr.between 9 13 c) ","
           ["E501"; "W6"; "my plugin"]); [done|].
  repeat constructor; by vm_compute.
Defined.

(** X11. A text made only of characters of the class and of whitespace,
    the empty text among them, parses to the empty list. *)
Theorem comma_separated_blank :
  ∀ (p : ascii → bool) (value : string),
    Str.all (λ c, p c || Chr.isspace c) value = true →
    parse_comma_separated_list value (Cls p) = Return [].
Proof.
  intros p value Hblank. rewrite parse_comma_separated_list_cls. f_equal.
  pose proof (split_on_no_sep p value) as Hno.
  pose proof (split_on_all p _ value Hblank) as Hall.
  induction (split_on p value) as [|x xs IH]; [done|].
  apply Forall_cons in Hno as [Hx Hno], Hall as [Hx' Hall].
  cbn [fmap list_fmap]. rewrite filter_cons_False; [by apply IH|].
  intros Hne. apply Hne, strip_all_space. clear -Hx Hx'.
  induction x as [|c x IH]; [done|]. cbn in *.
  apply andb_true_iff in Hx as [Hc Hx], Hx' as [Hc' Hx'].
  rewrite IH by done. by destruct (p c), (Chr.isspace c).
Qed.

Lemma comma_separated_blank_witness :
  parse_comma_separated_list " ,, , " COMMA_SEPARATED_LIST_RE = Return [].
Proof.
  apply (comma_separated_blank (λ c, Chr.eqc "," c || Chr.isspace c)).
  by vm_compute.
Defined.

(** X12. Parsing two texts put together with a character of the class
    between them gives the items of the first followed by the items of the
    second. *)
Theorem comma_separated_concat :
  ∀ (p : ascii → bool) (sepc : ascii) (a b : string)
    (items_a items_b : list string),
    p sepc = true →
    parse_comma_separated_list a (Cls p) = Return items_a →
    parse_comma_separated_list b (Cls p) = Return items_b →
    parse_comma_separated_list (a +:+ String sepc b) (Cls p)
      = Return (items_a ++ items_b).
Proof.
  intros p sepc a b items_a items_b Hsep.
  rewrite !parse_comma_separated_list_cls. intros [= <-] [= <-].
  by rewrite split_on_app, fmap_app, filter_app.
Qed.

Lemma comma_separated_concat_witness :
  parse_comma_separated_list ("E1, E2" +:+ String "," " W3")
    COMMA_SEPARATED_LIST_RE
  = Return (["E1"; "E2"] ++ ["W3"]).
Proof.
  apply (comma_separated_concat (λ c, Chr.eqc "," c || Chr.isspace c));
    by vm_compute.
Defined.

(** ** Package names *)

Lemma lower_char_idem c : lower_char (lower_char c) = lower_char c.
Proof. by destruct c as [[] [] [] [] [] [] [] []]; vm_compute. Qed.

Lemma lower_char_sep c : name_sep (lower_char c) = name_sep c.
Proof. by destruct c as [[] [] [] [] [] [] [] []]; vm_compute. Qed.

Lemma name_sep_cases c :
  name_sep c = Chr.eqc "-" c || Chr.eqc "_" c || Chr.eqc "." c.
Proof. reflexivity. Qed.

Lemma lower_app a b : lower (a +:+ b) = lower a +:+ lower b.
Proof.
  induction a as [|c a IH]; [done|]. rewrite str_app_cons. cbn.
  by rewrite IH.
Qed.

Lemma normalize_pypi_name_eq s :
  normalize_pypi_name s = Return (lower (sub_runs name_sep "-" false s)).
Proof.
  unfold normalize_pypi_name, NORMALIZE_PACKAGE_NAME_RE.
  change (λ c, Chr.eqc "-" c || Chr.eqc "_" c || Chr.eqc "." c)
    with name_sep.
  by rewrite re_sub_plus.
Qed.

(** After the substitution and the lowering the text is normalized. *)
Lemma normalized_sub_runs s : ∀ in_run,
  normalized in_run (lower (sub_runs name_sep "-" in_run s)) = true.
Proof.
  induction s as [|c s IH]; intros in_run; cbn [sub_runs]; [done|].
  destruct (name_sep c) eqn:Hc.
  - destruct in_run; [by rewrite str_app_nil_l|].
    rewrite str_app_cons, str_app_nil_l. cbn [lower normalized].
    change (lower_char "-") with "-"%char.
    change (Chr.eqc "-" "-") with true. cbn. apply IH.
  - cbn [lower normalized].
    rewrite lower_char_idem, bool_decide_eq_true_2 by done.
    pose proof (lower_char_sep c) as Hl. rewrite Hc, name_sep_cases in Hl.
    apply orb_false_iff in Hl as [[H1 H2]%orb_false_iff H3].
    rewrite H1, H2, H3, andb_false_r. cbn. apply IH.
Qed.

(** A normalized text is left as it is. *)
Lemma normalized_fixed t : ∀ after_dash,
  normalized after_dash t = true →
  lower (sub_runs name_sep "-" after_dash t) = t.
Proof.
  induction t as [|c t IH]; intros b; cbn [normalized sub_runs]; [done|].
  rewrite !andb_true_iff.
  intros ((((Hlow%bool_decide_eq_true & Hu%negb_true_iff)
            & Hd%negb_true_iff) & Hb%negb_true_iff) & Ht).
  rewrite name_sep_cases, Hu, Hd, !orb_false_r.
  destruct (Chr.eqc "-" c) eqn:Hc.
  - rewrite andb_true_r in Hb. subst b.
    rewrite str_app_cons, str_app_nil_l. cbn [lower].
    unfold Chr.eqc in Hc. apply bool_decide_eq_true in Hc. subst c.
    f_equal. by apply IH.
  - cbn [lower]. rewrite Hlow. f_equal. by apply IH.
Qed.

(** X13. [normalize_pypi_name] always returns, and the name it returns has
    no capital letter, no "_" and no ".", and no "-" right after a "-". *)
Theorem normalized_pypi_name (s : string) :
  ∃ t, normalize_pypi_name s = Return t ∧ normalized false t = true.
Proof.
  eexists. split; [apply normalize_pypi_name_eq|apply normalized_sub_runs].
Qed.

(** X14. Normalizing a name that is already normalized gives it back:
    [normalize_pypi_name] applied twice is [normalize_pypi_name] applied
    once. *)
Theorem normalize_pypi_name_idempotent :
  ∀ s t : string,
    normalize_pypi_name s = Return t → normalize_pypi_name t = Return t.
Proof.
  intros s t. rewrite !normalize_pypi_name_eq. intros [= <-]. f_equal.
  apply normalized_fixed, normalized_sub_runs.
Qed.

Lemma normalize_pypi_name_idempotent_witness :
  normalize_pypi_name "Flake8_Import..Order" = Return "flake8-import-order"
  ∧ normalize_pypi_name "flake8-import-order" = Return "flake8-import-order".
Proof.
  assert (normalize_pypi_name "Flake8_Import..Order"
          = Return "flake8-import-order") as H by (by vm_compute).
  split; [exact H|]. exact (normalize_pypi_name_idempotent _ _ H).
Defined.

Lemma str_app_assoc s t u : (s +:+ t) +:+ u = s +:+ t +:+ u.
Proof.
  induction s as [|c s IH]; [done|]. by rewrite !str_app_cons, IH.
Qed.

Section sub_runs_facts.
Context (p : ascii → bool) (repl : string).

Lemma last_char_cons c a : ∃ d, last_char (String c a) = Some d.
Proof.
  revert c; induction a as [|c' a IH]; intros c; [by exists c|].
  destruct (IH c') as [d Hd]. exists d. by rewrite <-Hd.
Qed.

Lemma sub_runs_app a x : ∀ in_run,
  sub_runs p repl in_run (a +:+ x)
  = sub_runs p repl in_run a
    +:+ sub_runs p repl (run_state p in_run a) x.
Proof.
  unfold run_state.
  induction a as [|c a IH]; intros in_run; [done|].
  rewrite str_app_cons. cbn [sub_runs last_char].
  destruct (p c) eqn:Hc.
  - rewrite IH, str_app_assoc. do 2 f_equal.
    destruct a as [|c' a]; [by rewrite Hc|].
    by destruct (last_char_cons c' a) as [d ->].
  - rewrite IH, str_app_cons. do 2 f_equal.
    destruct a as [|c' a]; [by rewrite Hc|].
    by destruct (last_char_cons c' a) as [d ->].
Qed.

Lemma sub_runs_run r1 b : ∀ in_run,
  r1 ≠ "" → Str.all p r1 = true →
  sub_runs p repl in_run (r1 +:+ b)
  = (if in_run then "" else repl) +:+ sub_runs p repl true b.
Proof.
  induction r1 as [|c r1 IH]; intros in_run Hne; [done|].
  rewrite str_app_cons. cbn [sub_runs Str.all].
  intros [-> Hr1]%andb_true_iff. f_equal.
  destruct r1 as [|c' r1]; [done|]. by rewrite IH.
Qed.

End sub_runs_facts.

Lemma sub_runs_lower s : ∀ in_run,
  lower (sub_runs name_sep "-" in_run (lower s))
  = lower (sub_runs name_sep "-" in_run s).
Proof.
  induction s as [|c s IH]; intros in_run; cbn [lower sub_runs]; [done|].
  rewrite lower_char_sep. destruct (name_sep c).
  - by rewrite !lower_app, IH.
  - cbn [lower]. by rewrite lower_char_idem, IH.
Qed.

(** X15. Two names that differ only in a run of the separators "-", "_"
    and "." between two of their parts, or only in the case of their
    letters, have the same normal form. *)
Theorem normalize_pypi_name_equivalent :
  (∀ a b r1 r2 : string,
     r1 ≠ "" → r2 ≠ "" →
     Str.all name_sep r1 = true → Str.all name_sep r2 = true →
     normalize_pypi_name (a +:+ r1 +:+ b)
       = normalize_pypi_name (a +:+ r2 +:+ b))
  ∧ ∀ s : string, normalize_pypi_name (lower s) = normalize_pypi_name s.
Proof.
  split.
  - intros a b r1 r2 Hne1 Hne2 Hr1 Hr2. rewrite !normalize_pypi_name_eq.
    do 2 f_equal.
    rewrite (sub_runs_app _ _ a (r1 +:+ b)), (sub_runs_app _ _ a (r2 +:+ b)).
    f_equal. by rewrite !sub_runs_run.
  - intros s. rewrite !normalize_pypi_name_eq. f_equal.
    apply sub_runs_lower.
Qed.

Lemma normalize_pypi_name_equivalent_witness :
  normalize_pypi_name ("flake8" +:+ "_" +:+ "Docstrings")
    = normalize_pypi_name ("flake8" +:+ ".-" +:+ "Docstrings").
Proof.
  apply (proj1 normalize_pypi_name_equivalent); by vm_compute.
Defined.

(** ** Matching file names *)

Lemma fnmatch_true (glob : string → string → bool) filename patterns :
  fnmatch glob filename patterns = true ↔
  patterns = [] ∨ ∃ pattern, pattern ∈ patterns ∧ glob filename pattern = true.
Proof.
  unfold fnmatch. destruct patterns as [|p ps]; [by intuition|].
  rewrite existsb_exists. setoid_rewrite <-list_elem_of_In. split.
  - intros (x & ? & ?). right. by exists x.
  - by intros [[=]|(x & ? & ?)]; exists x.
Qed.

Section filename_facts.
Context (glob : string → string → bool) (basename abspath : string → string).
Implicit Types (path filename log_message : string) (patterns : list string).

(** When [matches_filename] says yes. *)
Lemma matches_filename_true path patterns log_message :
  (matches_filename glob basename abspath path patterns log_message).1 = true
  ↔ patterns ≠ []
    ∧ ((basename path ≠ "." ∧ basename path ≠ ".."
        ∧ ∃ pattern, pattern ∈ patterns
                     ∧ glob (basename path) pattern = true)
       ∨ ∃ pattern, pattern ∈ patterns
                    ∧ glob (abspath path) pattern = true).
Proof.
  unfold matches_filename. destruct patterns as [|p ps]; [by intuition|].
  set (patterns := p :: ps).
  assert (bool_decide (basename path ∈ ["."; ".."]) = false
          ↔ basename path ≠ "." ∧ basename path ≠ "..") as Hdots.
  { rewrite bool_decide_eq_false, !elem_of_cons, elem_of_nil. tauto. }
  destruct (bool_decide (basename path ∈ ["."; ".."])) eqn:Hdot;
    cbn [negb andb].
  - cbn [fst]. rewrite fnmatch_true. split.
    + intros [[=]|Hex]. split; [done|]. by right.
    + intros [_ [(Hne1 & Hne2 & _)|Hex]]; [|by right].
      destruct Hdots as [_ Hdots]. by specialize (Hdots (conj Hne1 Hne2)).
  - destruct (fnmatch glob (basename path) patterns) eqn:Hbase; cbn [fst].
    + apply fnmatch_true in Hbase as [[=]|Hex].
      split; [|done]. intros _. split; [done|]. left.
      destruct Hdots as [Hdots _]. by destruct (Hdots eq_refl).
    + rewrite fnmatch_true. split.
      * intros [[=]|Hex]. split; [done|]. by right.
      * intros [_ [(_ & _ & Hex)|Hex]]; [|by right].
        assert (fnmatch glob (basename path) patterns = true) as Hyes
          by (apply fnmatch_true; by right).
        congruence.
Qed.

End filename_facts.

(** X16. With no pattern [fnmatch] says yes for every file name, while
    [matches_filename] says no for every path. With patterns,
    [matches_filename] says yes exactly when a pattern matches the base
    name of the path, this name not being "." or "..", or a pattern
    matches the absolute path. *)
Theorem matches_filename_when :
  ∀ (glob : string → string → bool) (basename abspath : string → string)
    (path log_message : string) (patterns : list string),
    fnmatch glob path [] = true
    ∧ (matches_filename glob basename abspath path [] log_message).1 = false
    ∧ ((matches_filename glob basename abspath path patterns log_message).1
       = true
       ↔ patterns ≠ []
         ∧ ((basename path ≠ "." ∧ basename path ≠ ".."
             ∧ ∃ pattern, pattern ∈ patterns
                          ∧ glob (basename path) pattern = true)
            ∨ ∃ pattern, pattern ∈ patterns
                         ∧ glob (abspath path) pattern = true)).
Proof.
  intros. split; [done|]. split; [done|]. apply matches_filename_true.
Qed.

Lemma matches_filename_when_witness :
  (matches_filename (λ name pattern, bool_decide (name = pattern))
     (λ path, Str.drop 2 path) (λ path, "/w/" +:+ path)
     "d/.." [".."; "/w/d/.."] "%(path)s").1 = true
  ∧ [".."; "/w/d/.."] ≠ []
  ∧ ((Str.drop 2 "d/.." ≠ "." ∧ Str.drop 2 "d/.." ≠ ".."
      ∧ ∃ pattern, pattern ∈ [".."; "/w/d/.."]
                   ∧ bool_decide (Str.drop 2 "d/.." = pattern) = true)
     ∨ ∃ pattern, pattern ∈ [".."; "/w/d/.."]
                  ∧ bool_decide ("/w/" +:+ "d/.." = pattern) = true).
Proof.
  assert ((matches_filename (λ name pattern, bool_decide (name = pattern))
     (λ path, Str.drop 2 path) (λ path, "/w/" +:+ path)
     "d/.." [".."; "/w/d/.."] "%(path)s").1 = true) as H by done.
  split; [exact H|].
  exact (proj1 (proj2 (proj2 (matches_filename_when
           (λ name pattern, bool_decide (name = pattern))
           (λ path, Str.drop 2 path) (λ path, "/w/" +:+ path)
           "d/.." "%(path)s" [".."; "/w/d/.."]))) H).
Defined.

(** X17. [matches_filename] logs nothing when there is no pattern, and
    otherwise one record, with the message it was given: the record says
    "" for "whether" exactly when the answer is yes and "not " otherwise,
    and its path is the base name or the absolute path, the one a pattern
    matched when the answer is yes. *)
Theorem matches_filename_log :
  ∀ (glob : string → string → bool) (basename abspath : string → string)
    (path log_message : string) (patterns : list string),
    let result :=
      matches_filename glob basename abspath path patterns log_message in
    match result.2 with
    | [] => patterns = []
    | [record] =>
        patterns ≠ []
        ∧ debug_message record = log_message
        ∧ debug_whether record = (if result.1 then "" else "not ")
        ∧ (debug_path record = basename path
           ∨ debug_path record = abspath path)
        ∧ (result.1 = true →
           ∃ pattern, pattern ∈ patterns
                      ∧ glob (debug_path record) pattern = true)
    | _ => False
    end.
Proof.
  intros glob basename abspath path log_message patterns. cbn zeta.
  unfold matches_filename. destruct patterns as [|p ps]; [done|].
  set (patterns := p :: ps).
  destruct (negb (bool_decide (basename path ∈ ["."; ".."]))
            && fnmatch glob (basename path) patterns) eqn:Hbase;
    cbn [fst snd debug_message debug_whether debug_path].
  - apply andb_true_iff in Hbase as [_ [[=]|Hex]%fnmatch_true].
    repeat split; auto.
  - repeat split; auto.
    by intros [[=]|Hex]%fnmatch_true.
Qed.

Lemma matches_filename_log_witness :
  (matches_filename (λ name pattern, bool_decide (name = pattern))
     (λ path, Str.drop 2 path) (λ path, "/w/" +:+ path)
     "d/x.py" ["y.py"] "%(path)s %(whether)smatch")
  = (false, [mkDebug "%(path)s %(whether)smatch" "/w/d/x.py" "not "])
  ∧ ["y.py"] ≠ [].
Proof.
  split; [done|].
  pose proof (matches_filename_log
                (λ name pattern, bool_decide (name = pattern))
                (λ path, Str.drop 2 path) (λ path, "/w/" +:+ path)
                "d/x.py" "%(path)s %(whether)smatch" ["y.py"]) as H.
  exact (proj1 H).
Defined.

(** X18. Adding patterns never turns a yes of [matches_filename] into a
    no. *)
Theorem matches_filename_monotone :
  ∀ (glob : string → string → bool) (basename abspath : string → string)
    (path log_message : string) (patterns more : list string),
    patterns ⊆ more →
    (matches_filename glob basename abspath path patterns log_message).1
      = true →
    (matches_filename glob basename abspath path more log_message).1 = true.
Proof.
  intros glob basename abspath path log_message patterns more Hsub.
  rewrite !matches_filename_true.
  intros [Hne Hmatch]. split.
  - destruct patterns as [|p ps]; [done|].
    intros ->. specialize (Hsub p). rewrite elem_of_nil in Hsub.
    apply Hsub. by left.
  - destruct Hmatch as [(? & ? & q & Hq & ?)|(q & Hq & ?)];
      [left; repeat split; try done|right]; exists q; split; auto.
Qed.

Lemma matches_filename_monotone_witness :
  (matches_filename (λ name pattern, bool_decide (name = pattern))
     (λ path, Str.drop 2 path) (λ path, "/w/" +:+ path)
     "d/setup.py" ["setup.py"] "%(path)s").1 = true
  ∧ (matches_filename (λ name pattern, bool_decide (name = pattern))
       (λ path, Str.drop 2 path) (λ path, "/w/" +:+ path)
       "d/setup.py" ["docs"; "setup.py"] "%(path)s").1 = true.
Proof.
  assert ((matches_filename (λ name pattern, bool_decide (name = pattern))
     (λ path, Str.drop 2 path) (λ path, "/w/" +:+ path)
     "d/setup.py" ["setup.py"] "%(path)s").1 = true) as H by done.
  split; [exact H|].
  apply (matches_filename_monotone _ _ _ _ _ ["setup.py"]); [|exact H].
  intros x ->%list_elem_of_singleton. set_solver.
Defined.

(** ** Normalizing paths *)

Lemma contains_char c d rest :
  Str.contains (String c "") (String d rest)
  = bool_decide (c = d) || Str.contains (String c "") rest.
Proof.
  cbn [Str.contains Str.prefix]. rewrite andb_true_r.
  by destruct rest.
Qed.

Lemma contains_char_all c s :
  Str.all (λ d, negb (bool_decide (d = c))) s = true →
  Str.contains (String c "") s = false.
Proof.
  induction s as [|d s IH]; [done|]. cbn [Str.all].
  intros [Hd Hs]%andb_true_iff. rewrite contains_char, IH by done.
  rewrite orb_false_r. apply negb_true_iff in Hd.
  apply bool_decide_eq_false. apply bool_decide_eq_false in Hd. congruence.
Qed.

Lemma rstrip_chars_last chars s c :
  last_char (rstrip_chars chars s) = Some c →
  Str.contains (String c "") chars = false.
Proof.
  induction s as [|a s IH]; [done|]. cbn [rstrip_chars].
  destruct (rstrip_chars chars s) as [|b r].
  - destruct (Str.contains (String a "") chars) eqn:Ha; [done|].
    by intros [= <-].
  - intros Hlast. by apply IH.
Qed.

Lemma rstrip_chars_id chars s :
  Str.all (λ c, negb (Str.contains (String c "") chars)) s = true →
  rstrip_chars chars s = s.
Proof.
  induction s as [|a s IH]; [done|]. cbn [Str.all rstrip_chars].
  intros [Ha Hs]%andb_true_iff. rewrite IH by done.
  destruct s; [|done]. apply negb_true_iff in Ha. by rewrite Ha.
Qed.

Lemma separators_contain sep altsep c :
  Str.contains (String c "")
    (String sep "" +:+ match altsep with
                       | Some a => String a ""
                       | None => ""
                       end)
  = is_separator sep altsep c.
Proof.
  unfold is_separator. rewrite str_app_cons, str_app_nil_l, contains_char.
  f_equal. destruct altsep as [a|]; [|by rewrite bool_decide_eq_false_2].
  rewrite contains_char. cbn. rewrite orb_false_r.
  apply bool_decide_ext. split; [by intros ->|by intros [= ->]].
Qed.

(** X19. Whatever the platform, the working directory and the path,
    [normalize_path] returns a text that does not end with the separator
    of paths or with the alternative separator. *)
Theorem normalize_path_no_trailing_separator :
  ∀ (sep : ascii) (altsep : option ascii) (abspath : string → string)
    (join : string → string → string) (path parent : string) (c : ascii),
    last_char (normalize_path sep altsep abspath join path parent) = Some c →
    is_separator sep altsep c = false.
Proof.
  intros sep altsep abspath join path parent c.
  unfold normalize_path. intros Hlast%rstrip_chars_last.
  by rewrite separators_contain in Hlast.
Qed.

Lemma normalize_path_no_trailing_separator_witness :
  last_char
    (normalize_path "/" None (λ p, p) (λ a b, a +:+ "/" +:+ b) "src//" "/w")
    = Some "c"%char
  ∧ is_separator "/" None "c" = false.
Proof.
  assert (last_char
    (normalize_path "/" None (λ p, p) (λ a b, a +:+ "/" +:+ b) "src//" "/w")
    = Some "c"%char) as H by done.
  split; [exact H|].
  exact (normalize_path_no_trailing_separator _ _ _ _ _ _ _ H).
Defined.

(** X20. A path other than "." in which no separator occurs is returned as
    it is: neither the parent directory nor the working directory is looked
    at. *)
Theorem normalize_path_plain_name :
  ∀ (sep : ascii) (altsep : option ascii) (abspath : string → string)
    (join : string → string → string) (path parent : string),
    path ≠ "." →
    Str.all (λ c, negb (is_separator sep altsep c)) path = true →
    normalize_path sep altsep abspath join path parent = path.
Proof.
  intros sep altsep abspath join path parent Hdot Hplain.
  unfold normalize_path.
  rewrite bool_decide_eq_false_2 by done.
  rewrite contains_char_all.
  2:{ eapply str_all_impl; [|exact Hplain]. intros c. unfold is_separator.
      by destruct (bool_decide (c = sep)). }
  assert ((negb (bool_decide (match altsep with
                              | Some c => String c ""
                              | None => ""
                              end = ""))
           && Str.contains match altsep with
                           | Some c => String c ""
                           | None => ""
                           end path) = false) as ->.
  { destruct altsep as [a|]; [|done]. rewrite contains_char_all; [done|].
    eapply str_all_impl; [|exact Hplain]. intros c. unfold is_separator.
    rewrite negb_orb. intros [_ Hc]%andb_true_iff.
    apply negb_true_iff, bool_decide_eq_false in Hc.
    apply negb_true_iff, bool_decide_eq_false. congruence. }
  cbn [orb]. apply rstrip_chars_id.
  eapply str_all_impl; [|exact Hplain].
  intros c. by rewrite separators_contain.
Qed.

Lemma normalize_path_plain_name_witness :
  normalize_path "\" (Some "/"%char) (λ p, "C:\w\" +:+ p)
    (λ a b, a +:+ "\" +:+ b) "setup.py" "."
  = "setup.py".
Proof.
  apply normalize_path_plain_name; [done|by vm_compute].
Defined.

(** ** More on the mapping parser *)

(** X21. A mapping that starts with a code, that is with capital letters
    followed by digits and then the end of the input, whitespace or a
    comma, is rejected with the configuration-format error: a code is met
    while filenames are collected. *)
Theorem mapping_starting_with_code_is_rejected :
  ∀ value : string,
    (0 < Str.span Chr.isupper_az value)%nat →
    at_boundary (Str.drop (code_run value) value) = true →
    parse_files_to_codes_mapping (inr value)
      = Raise (_unexpected_token value).
Proof.
  intros value Hup Hb. unfold parse_files_to_codes_mapping.
  assert (Str.strip value ≠ "") as Hne.
  { destruct value as [|c t]; cbn in Hup; [lia|].
    destruct (Chr.isupper_az c) eqn:Hc; [|lia].
    apply upper_class in Hc as (_ & Hs & _).
    unfold Str.strip. rewrite lstrip_id by done.
    by destruct (rstrip_head c t Hs) as [r ->]. }
  destruct (Str.strip value) eqn:Hstrip; [done|]. clear Hstrip Hne.
  unfold _tokenize_files_to_codes_mapping.
  pose proof (code_run_length value) as Hlen.
  assert (0 < code_run value)%nat as Hrun by (unfold code_run; lia).
  destruct (String.length value) as [|n] eqn:Hn; [lia|].
  rewrite tokenize_loop_S, Hn, bool_decide_eq_true_2 by lia.
  rewrite first_match_code by (rewrite ?str_drop_0; done).
  rewrite str_drop_0. cbn [Re.m_end Nat.add].
  destruct (tokenize_loop_spec value n (code_run value)
              ([] ++ [Token _CODE
                        (Str.strip
                           (Re.group0 value
                              {| Re.m_start := 0; Re.m_end := code_run value;
                                 Re.m_groups := [] |}))]))
    as (spans & -> & _); [lia..|].
  done.
Qed.

Lemma mapping_starting_with_code_is_rejected_witness :
  parse_files_to_codes_mapping (inr "E123,f.py:W1")
    = Raise (_unexpected_token "E123,f.py:W1").
Proof.
  apply mapping_starting_with_code_is_rejected; by vm_compute.
Defined.

Section open_group_facts.
Variable value : string.

Lemma step_eof_no_code t b F ret :
  tp t = _EOF →
  parse_step value t (mkState b true F []) ret = Return (State0, ret).
Proof. unfold parse_step. by intros ->. Qed.

Lemma loop_open_group g eof st ret :
  open_group g → tp eof = _EOF → group_start st →
  parse_loop value (g ++ [eof]) st ret = Return (ret ++ pending st).
Proof.
  intros (ftoks & fs & s1 & colon & s2 & -> & Hf & Hs1 & Hcolon & Hs2) Heof Hst.
  destruct Hf as [f ftl fs Hfs].
  assert (parse_loop value
            (((Token _FILE f :: ftl) ++ s1 ++ colon :: s2) ++ [eof]) st ret
          = parse_loop value (ftl ++ s1 ++ colon :: s2 ++ [eof])
              (mkState false false [f] []) (ret ++ pending st)) as ->.
  { rewrite <-!app_comm_cons, <-!(assoc_L (++)), <-!app_comm_cons.
    apply parse_loop_cons.
    destruct st as [b [] F C], Hst as [Hb HC]; cbn in Hb, HC; subst b.
    - by rewrite step_file_next.
    - destruct HC as [-> ->]. unfold pending; cbn. by rewrite app_nil_r. }
  rewrite (loop_more_files _ ftl fs) by done. rewrite loop_seps by done.
  erewrite parse_loop_cons by (by apply step_colon).
  rewrite loop_seps by done. cbn [orb].
  erewrite parse_loop_cons by (by apply step_eof_no_code).
  done.
Qed.

Lemma loop_groups_open body gs : ∀ st ret seps rest,
  groups_tokens body gs → group_start st → seps ≠ [] → Forall sep seps →
  ∃ st' ret',
    parse_loop value (body ++ seps ++ rest) st ret
      = parse_loop value rest st' ret'
    ∧ group_start st'
    ∧ ret' ++ pending st' = ret ++ pending st ++ declared gs.
Proof.
  intros st ret seps rest Hgs. revert st ret.
  induction Hgs as [toks g Hg|toks g seps' toks' gs Hg Hne Hseps' _ IH];
    intros st ret Hst Hne' Hseps.
  - destruct (loop_group value toks g (seps ++ rest) st ret Hg Hst)
      as [Hc ->].
    rewrite loop_seps_ne by done.
    eexists _, _. split; [done|]. split; [by split|].
    unfold pending, declared. cbn. by rewrite app_nil_r, <-(assoc_L (++)).
  - rewrite <-!(assoc_L (++)).
    destruct (loop_group value toks g (seps' ++ toks' ++ seps ++ rest) st ret
                Hg Hst) as [Hc ->].
    rewrite loop_seps_ne by done.
    destruct (IH (mkState true true g.1 g.2) (ret ++ pending st))
      as (st' & ret' & -> & Hst' & Hret); [by split|done..|].
    exists st', ret'. split; [done|]. split; [done|].
    rewrite Hret. unfold pending, declared. cbn.
    by rewrite <-!(assoc_L (++)).
Qed.

End open_group_facts.

Lemma open_group_has_file g : open_group g → ∃ f, Token _FILE f ∈ g.
Proof.
  intros (ftoks & fs & s1 & colon & s2 & -> & [f ftl fs' _] & _).
  exists f. apply elem_of_app. left. left.
Qed.

(** X22. A last group that has its colon and no code is dropped with no
    error: the parser returns the pairs of the groups before it (none when
    the mapping is this group alone), and no pair for its filenames. *)
Theorem last_group_without_codes_is_dropped :
  (∀ (value_ : list string + string) (tokens s0 g : list _Token)
     (eof : _Token),
     _tokenize_files_to_codes_mapping (mapping_text value_) = Return tokens →
     tokens = s0 ++ g ++ [eof] →
     Forall sep s0 → open_group g → tp eof = _EOF →
     parse_files_to_codes_mapping value_ = Return [])
  ∧ ∀ (value_ : list string + string)
      (tokens s0 body seps g : list _Token) (eof : _Token)
      (gs : list (list string * list string)),
      _tokenize_files_to_codes_mapping (mapping_text value_) = Return tokens →
      tokens = s0 ++ body ++ seps ++ g ++ [eof] →
      Forall sep s0 → groups_tokens body gs →
      seps ≠ [] → Forall sep seps → open_group g → tp eof = _EOF →
      parse_files_to_codes_mapping value_ = Return (declared gs).
Proof.
  split.
  - intros value_ tokens s0 g eof Htok -> Hs0 Hg Heof.
    unfold parse_files_to_codes_mapping. fold (mapping_text value_).
    destruct (open_group_has_file _ Hg) as [f Hf].
    pose proof (file_token_not_blank _ _ f Htok) as Hne.
    destruct (Str.strip (mapping_text value_)).
    { exfalso. apply Hne; [|done]. rewrite !elem_of_app. auto. }
    rewrite Htok. cbn [mbind outcome_bind].
    change State0 with (mkState true false [] []).
    rewrite loop_seps by done. cbn [orb].
    by rewrite loop_open_group.
  - intros value_ tokens s0 body seps g eof gs Htok -> Hs0 Hgs Hne' Hseps
      Hg Heof.
    unfold parse_files_to_codes_mapping. fold (mapping_text value_).
    destruct (open_group_has_file _ Hg) as [f Hf].
    pose proof (file_token_not_blank _ _ f Htok) as Hne.
    destruct (Str.strip (mapping_text value_)).
    { exfalso. apply Hne; [|done]. rewrite !elem_of_app. auto. }
    rewrite Htok. cbn [mbind outcome_bind].
    change State0 with (mkState true false [] []).
    rewrite loop_seps by done. cbn [orb].
    destruct (loop_groups_open (mapping_text value_) body gs
                (mkState true false [] []) [] seps (g ++ [eof]))
      as (st' & ret' & -> & Hst' & Hret); [done|by split|done..|].
    rewrite loop_open_group by done. by rewrite Hret.
Qed.

Lemma last_group_without_codes_is_dropped_witness :
  parse_files_to_codes_mapping (inr "a.py:E1 b.py,c.py :")
    = Return (declared [(["a.py"], ["E1"])]).
Proof.
  apply (proj2 last_group_without_codes_is_dropped (inr "a.py:E1 b.py,c.py :")
           [Token _FILE "a.py"; Token _COLON ":"; Token _CODE "E1";
            Token _WS ""; Token _FILE "b.py"; Token _COMMA ",";
            Token _FILE "c.py"; Token _COLON ":"; Token _EOF ""]
           [] [Token _FILE "a.py"; Token _COLON ":"; Token _CODE "E1"]
           [Token _WS ""]
           [Token _FILE "b.py"; Token _COMMA ","; Token _FILE "c.py";
            Token _COLON ":"] (Token _EOF "")).
  - by vm_compute.
  - done.
  - constructor.
  - apply groups_one.
    apply (group_intro [Token _FILE "a.py"] ["a.py"] [] (Token _COLON ":") []
             [Token _CODE "E1"] ["E1"]); try done.
    + apply items_intro. constructor.
    + apply items_intro. constructor.
  - done.
  - constructor; [by right|constructor].
  - exists [Token _FILE "b.py"; Token _COMMA ","; Token _FILE "c.py"],
      ["b.py"; "c.py"], [], (Token _COLON ":"), [].
    split; [done|]. split; [|done].
    apply items_intro.
    apply (more_cons _FILE [Token _COMMA ","] "c.py" [] []); try done.
    + repeat constructor.
    + constructor.
  - done.
Defined.

(** ** Hunk bodies *)

Lemma removal_line_ignored line st :
  Str.prefix "-" line = true → truthy (number_of_rows st) = false →
  diff_step line st = Return st.
Proof.
  intros Hminus Hrows. destruct line as [|c line]; [done|].
  cbn in Hminus. rewrite andb_true_r in Hminus.
  apply bool_decide_eq_true in Hminus. subst c.
  apply diff_step_other; [done..|].
  unfold hunk_header.
  destruct (Re.match_at DIFF_HUNK_REGEXP (String "-" line) 0) as [m|] eqn:Hm;
    [|done].
  by apply hunk_match_groups in Hm as [[=] _].
Qed.

(** X23. The parser passes over the body of a hunk whole: when the
    countdown is the number of lines of the body that do not start with
    "-", reading the body changes neither the path nor the line numbers
    recorded, whatever its lines are, and leaves the countdown at 0. *)
Theorem hunk_body_is_skipped :
  ∀ (body rest : list string) (st : DiffState),
    number_of_rows st = Some (Z.of_nat (rows_in body)) →
    diff_loop (body ++ rest) st
      = diff_loop rest (mkDiff (Some 0) (current_path st) (parsed_paths st)).
Proof.
  unfold rows_in. induction body as [|line body IH]; intros rest st Hrows.
  { destruct st as [rows path parsed]; cbn in *. by subst rows. }
  cbn [app]. destruct (Str.prefix "-" line) eqn:Hminus.
  - rewrite filter_cons_False in Hrows by congruence.
    destruct (length (filter (λ line, Str.prefix "-" line = false) body))
      as [|k] eqn:Hk.
    + rewrite (diff_loop_cons _ _ _ st); [by apply IH|].
      apply removal_line_ignored; [done|]. by rewrite Hrows.
    + rewrite (diff_loop_cons _ _ _ _
                 (diff_step_body line st _ Hrows ltac:(lia))).
      rewrite Hminus. by rewrite IH.
  - rewrite filter_cons_True in Hrows by done. cbn [length] in Hrows.
    rewrite (diff_loop_cons _ _ _ _
               (diff_step_body line st _ Hrows ltac:(lia))).
    rewrite Hminus. rewrite IH; [done|]. cbn. f_equal. lia.
Qed.

Lemma hunk_body_is_skipped_witness :
  diff_loop (["+++ b/x.py"; "-@@ -1 +1 @@"; " y"] ++ ["@@ -7 +9 @@"])
    (mkDiff (Some 2) (Some "a.py") ∅)
  = diff_loop ["@@ -7 +9 @@"] (mkDiff (Some 0) (Some "a.py") ∅).
Proof. by apply hunk_body_is_skipped. Defined.
